(** * Cerebrus comment sections: a shallow embedding of comment-sections.js

    The module (bin/ci-pr-validation/comment-sections.js) keeps one
    pull-request comment as a small document of named sections.  It is a
    handful of pure functions over JavaScript strings:
    [parseCommentSections], [buildComment], [updateCommentSection],
    [removeCommentSection] and [createCommentWithSection], over the constant
    table [SECTIONS] and the marker [CEREBRUS_IDENTIFIER].

    JavaScript strings are sequences of UTF-16 code units, and both
    [String.prototype.trim] and the regular expression class [[\s\S]] work on
    code units, so a string is modelled as a list of code units ([N]). *)

From Stdlib Require Import Ascii String.
From Stdlib Require Import List NArith ZArith Bool Lia.
From Stdlib Require Import Permutation Sorted.
From Stdlib Require DecimalN.
Import ListNotations.

Local Open Scope N_scope.

(** ** Strings *)

Definition code_unit := N.
Definition js_string := list code_unit.

(** A source literal (all literals of the module are ASCII). *)
Definition lit (s : string) : js_string :=
  map N_of_ascii (list_ascii_of_string s).

Definition LF : code_unit := 10.

Fixpoint str_eqb (a b : js_string) : bool :=
  match a, b with
  | [], [] => true
  | x :: a', y :: b' => (x =? y) && str_eqb a' b'
  | _, _ => false
  end.

(** [starts_with p s]: the literal [p] matches at the head of [s]. *)
Fixpoint starts_with (p s : js_string) : bool :=
  match p, s with
  | [], _ => true
  | _ :: _, [] => false
  | x :: p', y :: s' => (x =? y) && starts_with p' s'
  end.

(** [occurs p s]: [p] is a substring of [s] ([s.includes(p)]). *)
Fixpoint occurs (p s : js_string) : bool :=
  starts_with p s ||
  match s with
  | [] => false
  | _ :: s' => occurs p s'
  end.

(** [Array.prototype.join]. *)
Fixpoint join (sep : js_string) (parts : list js_string) : js_string :=
  match parts with
  | [] => []
  | [p] => p
  | p :: rest => p ++ sep ++ join sep rest
  end.

(** ECMAScript WhiteSpace and LineTerminator code points: what [trim]
    strips and what [\s] matches. *)
Definition is_white_space (c : code_unit) : bool :=
  (c =? 9) || (c =? 10) || (c =? 11) || (c =? 12) || (c =? 13) ||
  (c =? 32) || (c =? 160) || (c =? 5760) ||
  ((8192 <=? c) && (c <=? 8202)) ||
  (c =? 8232) || (c =? 8233) || (c =? 8239) || (c =? 8287) ||
  (c =? 12288) || (c =? 65279).

Fixpoint trim_start (s : js_string) : js_string :=
  match s with
  | [] => []
  | c :: s' => if is_white_space c then trim_start s' else s
  end.

Definition trim_end (s : js_string) : js_string :=
  rev (trim_start (rev s)).

(** [String.prototype.trim]. *)
Definition trim (s : js_string) : js_string := trim_end (trim_start s).

(** ** The regular expression of the parser

    [new RegExp(`${config.start}([\s\S]*?)${config.end}`)] used with
    [String.prototype.match] and no flag: the first position, from the left,
    at which the start marker, then as few code units as possible, then the
    end marker can be matched; the result is the capture group.  The markers
    of the table hold no character that a regular expression reads
    specially (see [markers_are_literal]), so each matches itself. *)

(** [([\s\S]*?)end] matched at the head of [s]: the capture. *)
Fixpoint lazy_until (en s : js_string) : option js_string :=
  if starts_with en s then Some []
  else match s with
       | [] => None
       | c :: s' => option_map (cons c) (lazy_until en s')
       end.

(** The attempt at one position. *)
Definition match_here (st en s : js_string) : option js_string :=
  if starts_with st s then lazy_until en (skipn (length st) s) else None.

(** The leftmost position with a match. *)
Fixpoint regex_match (st en s : js_string) : option js_string :=
  match match_here st en s with
  | Some cap => Some cap
  | None =>
      match s with
      | [] => None
      | _ :: s' => regex_match st en s'
      end
  end.

(** ** The section table *)

Definition CEREBRUS_IDENTIFIER : js_string := lit "<!-- TiddlyWiki PR report -->".

Record section_config := mkConfig {
  priority : Z;
  start : js_string;
  end_ : js_string
}.

Definition BUILD_SIZE : js_string := lit "BUILD_SIZE".
Definition PATH_VALIDATION : js_string := lit "PATH_VALIDATION".
Definition CHANGE_NOTE : js_string := lit "CHANGE_NOTE".

(** The own properties of [SECTIONS], in the order of the literal. *)
Definition SECTIONS : list (js_string * section_config) :=
  [ (BUILD_SIZE,
      mkConfig 1 (lit "<!-- Build Size Section -->")
                 (lit "<!-- End Build Size Section -->"));
    (PATH_VALIDATION,
      mkConfig 2 (lit "<!-- Path Validation Section -->")
                 (lit "<!-- End Path Validation Section -->"));
    (CHANGE_NOTE,
      mkConfig 3 (lit "<!-- Change Note Section -->")
                 (lit "<!-- End Change Note Section -->")) ].

(** ** Objects used as maps

    An object literal with string keys: its own enumerable properties in
    insertion order, which is the order of [Object.entries] and
    [Object.keys] (no key that gets past the guards below is an array
    index, so no property is moved to the front). *)

Section Objects.
Variable V : Type.

Definition object := list (js_string * V).

Fixpoint own_get (k : js_string) (o : object) : option V :=
  match o with
  | [] => None
  | (k', v) :: o' => if str_eqb k k' then Some v else own_get k o'
  end.

(** Writing an own property: in place when the key exists, else at the
    end. *)
Fixpoint own_put (k : js_string) (v : V) (o : object) : object :=
  match o with
  | [] => [(k, v)]
  | (k', v') :: o' =>
      if str_eqb k k' then (k', v) :: o' else (k', v') :: own_put k v o'
  end.

(** [delete o[k]]. *)
Fixpoint own_delete (k : js_string) (o : object) : object :=
  match o with
  | [] => []
  | (k', v') :: o' =>
      if str_eqb k k' then o' else (k', v') :: own_delete k o'
  end.

Definition keys (o : object) : list js_string := map fst o.
End Objects.

Arguments own_get {V} k o.
Arguments own_put {V} k v o.
Arguments own_delete {V} k o.
Arguments keys {V} o.

(** The properties every object literal inherits from [Object.prototype]. *)
Definition Object_prototype_keys : list js_string :=
  map lit [ "constructor"; "__defineGetter__"; "__defineSetter__";
            "hasOwnProperty"; "__lookupGetter__"; "__lookupSetter__";
            "isPrototypeOf"; "propertyIsEnumerable"; "toString"; "valueOf";
            "__proto__"; "toLocaleString" ]%string.

(** What [SECTIONS[sectionKey]] evaluates to. *)
Inductive property_value :=
| Undefined
| Descriptor (config : section_config)
| Inherited.  (* a function, or Object.prototype itself: truthy, and without
                 own enumerable properties *)

Definition SECTIONS_get (sectionKey : js_string) : property_value :=
  match own_get sectionKey SECTIONS with
  | Some config => Descriptor config
  | None =>
      if existsb (str_eqb sectionKey) Object_prototype_keys
      then Inherited else Undefined
  end.

Definition truthy (v : property_value) : bool :=
  match v with
  | Undefined => false
  | _ => true
  end.

(** [{...v}]: the own enumerable properties that a spread copies. *)
Definition spread (v : property_value) : option section_config :=
  match v with
  | Descriptor config => Some config
  | _ => None
  end.

(** A section object [{content, ...config}]; without a config its
    [priority], [start] and [end] are undefined. *)
Record section := mkSection {
  content : js_string;
  config : option section_config
}.

Definition sections_object := object section.

(** [sections[sectionKey] = value]: the key [__proto__] goes to the setter
    inherited from [Object.prototype], which changes the prototype and adds
    no own property. *)
Definition assign (sectionKey : js_string) (value : section)
    (sections : sections_object) : sections_object :=
  if str_eqb sectionKey (lit "__proto__") then sections
  else own_put sectionKey value sections.

(** ** parseCommentSections *)

Definition parseCommentSections (commentBody : js_string) : sections_object :=
  fold_left
    (fun sections '(key, config) =>
       match regex_match (start config) (end_ config) commentBody with
       | Some capture =>
           assign key (mkSection (trim capture) (Some config)) sections
       | None => sections
       end)
    SECTIONS [].

(** ** buildComment *)

(** [a.priority - b.priority] as [Array.prototype.sort] reads it: an
    undefined priority makes the difference NaN, which sort takes as +0. *)
Definition compare_priority (a b : js_string * section) : Z :=
  match config (snd a), config (snd b) with
  | Some ca, Some cb => (priority ca - priority cb)%Z
  | _, _ => 0%Z
  end.

(** [Array.prototype.sort] is stable; with a consistent comparator its
    result is the one of a stable insertion sort.  (With entries of
    undefined priority next to others the comparator is not consistent and
    the order is left to the implementation; nothing below relies on it.) *)
Section Sort.
Variable A : Type.
Variable cmp : A -> A -> Z.

Fixpoint insert_sorted (x : A) (l : list A) : list A :=
  match l with
  | [] => [x]
  | y :: l' => if (cmp x y <=? 0)%Z then x :: l else y :: insert_sorted x l'
  end.

Definition array_sort (l : list A) : list A :=
  fold_right insert_sorted [] l.
End Sort.

Arguments insert_sorted {A} cmp x l.
Arguments array_sort {A} cmp l.

Definition sortedSections (sections : sections_object)
  : list (js_string * section) :=
  array_sort compare_priority sections.

(** A field that may be undefined, as [join] prints it. *)
Definition field (f : section_config -> js_string) (s : section) : js_string :=
  match config s with
  | Some c => f c
  | None => []
  end.

(** The body of the [forEach] callback: the pushes for one section. *)
Definition push_section (len : nat) (parts : list js_string)
    (entry : (js_string * section) * nat) : list js_string :=
  let '((_, section), index) := entry in
  parts ++ [ []; field start section; []; content section; [];
             field end_ section ]
        ++ (if (Z.of_nat index <? Z.of_nat len - 1)%Z
            then [ []; lit "---" ] else []).

Definition buildParts (sections : sections_object) : list js_string :=
  let sorted := sortedSections sections in
  fold_left (push_section (length sorted))
            (combine sorted (seq 0 (length sorted)))
            [CEREBRUS_IDENTIFIER].

Definition buildComment (sections : sections_object) : js_string :=
  join [LF] (buildParts sections).

(** ** The three operations *)

Inductive result (T : Type) :=
| Return (value : T)
| Throw (message : js_string).
Arguments Return {T} value.
Arguments Throw {T} message.

Definition unknown_key (sectionKey : js_string) : js_string :=
  lit "Unknown section key: " ++ sectionKey.

Definition updateCommentSection (existingBody sectionKey newContent : js_string)
  : result js_string :=
  if negb (truthy (SECTIONS_get sectionKey)) then Throw (unknown_key sectionKey)
  else
    let sections := parseCommentSections existingBody in
    let sections :=
      assign sectionKey
        (mkSection newContent (spread (SECTIONS_get sectionKey))) sections in
    Return (buildComment sections).

(** [None] is the [null] the function returns. *)
Definition removeCommentSection (existingBody sectionKey : js_string)
  : result (option js_string) :=
  if negb (truthy (SECTIONS_get sectionKey)) then Throw (unknown_key sectionKey)
  else
    let sections := parseCommentSections existingBody in
    let sections := own_delete sectionKey sections in
    if (length (keys sections) =? 0)%nat then Return None
    else Return (Some (buildComment sections)).

(** A computed key in an object literal defines an own property, whatever
    the key. *)
Definition createCommentWithSection (sectionKey content : js_string)
  : result js_string :=
  if negb (truthy (SECTIONS_get sectionKey)) then Throw (unknown_key sectionKey)
  else
    let sections :=
      [ (sectionKey, mkSection content (spread (SECTIONS_get sectionKey))) ] in
    Return (buildComment sections).

(** * Notions of the specification *)

(** ** Section sets *)

(** An entry of a section object as the module builds it: a key of the
    table with the table's descriptor spread into the section. *)
Definition entry_ok (e : js_string * section) : Prop :=
  exists c, own_get (fst e) SECTIONS = Some c /\ config (snd e) = Some c.

Definition sections_ok (sections : sections_object) : Prop :=
  NoDup (keys sections) /\ Forall entry_ok sections.

(** No start or end marker of the table occurs in the content. *)
Definition marker_free (content : js_string) : bool :=
  forallb (fun e => negb (occurs (start (snd e)) content) &&
                    negb (occurs (end_ (snd e)) content)) SECTIONS.

Definition contents_marker_free (sections : sections_object) : Prop :=
  Forall (fun e => marker_free (content (snd e)) = true) sections.

Definition trimmed (s : js_string) : Prop := trim s = s.

(** A valid section set: sections of the table, each content trimmed and
    free of markers. *)
Definition valid_section_set (sections : sections_object) : Prop :=
  sections_ok sections /\
  Forall (fun e => trimmed (content (snd e)) /\
                   marker_free (content (snd e)) = true) sections.

(** A section as the parser reads it back. *)
Definition trim_content (s : section) : section :=
  mkSection (trim (content s)) (config s).

(** ** The document format, in the words of the specification

    The identifier line first; then, for each section in priority order, a
    blank line, its start marker, a blank line, its content, a blank line,
    its end marker; between consecutive sections a blank line and a lone
    [---] line; nothing after the last section. *)

Definition blank_line : js_string := [].

Definition section_lines (s : section) : list js_string :=
  [ blank_line; field start s; blank_line; content s; blank_line;
    field end_ s ].

Definition separator_lines : list js_string := [ blank_line; lit "---" ].

Fixpoint document_lines (ordered : list section) : list js_string :=
  match ordered with
  | [] => []
  | s :: rest =>
      section_lines s ++
      match rest with
      | [] => []
      | _ :: _ => separator_lines ++ document_lines rest
      end
  end.

Definition document_format (ordered : list section) : js_string :=
  join [LF] (CEREBRUS_IDENTIFIER :: document_lines ordered).

(** The priority of an entry, once it has one, and the orders by a numeric
    key. *)
Definition prio (e : js_string * section) : Z :=
  match config (snd e) with
  | Some c => priority c
  | None => 0%Z
  end.

Definition key_le {A : Type} (f : A -> Z) (a b : A) : Prop := (f a <= f b)%Z.
Definition key_lt {A : Type} (f : A -> Z) (a b : A) : Prop := (f a < f b)%Z.

(** ** Calling twice *)

(** A second call on the body that a first call returned. *)
Definition update_again (first : result js_string)
    (sectionKey newContent : js_string) : result js_string :=
  match first with
  | Return body => updateCommentSection body sectionKey newContent
  | Throw message => Throw message
  end.

(** ** Canonical serialization

    A document without sections has no text: [removeCommentSection] answers
    [null] for it.  [reserialize] parses a body and renders what was
    found. *)

Definition serialize (sections : sections_object) : option js_string :=
  match sections with
  | [] => None
  | _ :: _ => Some (buildComment sections)
  end.

Definition reserialize (body : js_string) : option js_string :=
  serialize (parseCommentSections body).


(** ** Positions in the rendered comment *)

(** The index, in [parts.join('\n')], of the first code unit of part [n]
    (for [n] at least 1): the parts before it, joined, and one line feed. *)
Definition part_offset (parts : list js_string) (n : nat) : nat :=
  length (join [LF] (firstn n parts)) + 1.

Fixpoint key_index (k : js_string) (l : list js_string) : option nat :=
  match l with
  | [] => None
  | k' :: l' => if str_eqb k k' then Some 0%nat else option_map S (key_index k l')
  end.

(** The position in the rendered comment of the start marker that
    [buildComment] pushes for the section under [key]: part 0 is the
    identifier, and the section sorted at index [n] pushes a blank and then
    its start marker as part [2 + 8 n] (six parts of its own and two of the
    separator for each section before it). *)
Definition start_marker_offset (sections : sections_object) (key : js_string)
  : option nat :=
  match key_index key (keys (sortedSections sections)) with
  | Some n => Some (part_offset (buildParts sections) (2 + 8 * n))
  | None => None
  end.

(** [String.prototype.indexOf], for reading a position off a text. *)
Fixpoint indexOf (p s : js_string) : option nat :=
  if starts_with p s then Some 0%nat
  else match s with
       | [] => None
       | _ :: s' => option_map S (indexOf p s')
       end.

(** * Notions of the proofs *)

(** Chunks in which the marker [p] does not occur. *)
Definition chunks_free (p : js_string) (chunks : list js_string) : Prop :=
  Forall (fun c => occurs p c = false) chunks.

(** The text of chunks that are each followed by a line feed. *)
Definition lines_text (chunks : list js_string) : js_string :=
  concat (map (fun c => c ++ [LF]) chunks).

(** What one iteration of the parser's loop contributes. *)
Definition parsed_entry (commentBody : js_string)
    (e : js_string * section_config) : list (js_string * section) :=
  match regex_match (start (snd e)) (end_ (snd e)) commentBody with
  | Some capture => [ (fst e, mkSection (trim capture) (Some (snd e))) ]
  | None => []
  end.

(** The characters a regular expression reads specially. *)
Definition regex_special : js_string := lit "\^$.*+?()[]{}|/".

Definition literal_pattern (p : js_string) : bool :=
  forallb (fun c => negb (existsb (N.eqb c) regex_special)) p.

(** What the proofs need of the table, checked by evaluation: markers are
    non-empty and hold no line feed; a start marker occurs neither in the
    identifier, nor in the separator, nor in an end marker, nor in the start
    marker of another key; priorities of different keys differ. *)
Definition no_line_feed (p : js_string) : bool :=
  negb (existsb (N.eqb LF) p).

Definition marker_ok (p : js_string) : bool :=
  no_line_feed p && negb (occurs p []) &&
  negb (occurs p CEREBRUS_IDENTIFIER) && negb (occurs p (lit "---")).

Definition table_entry_ok (e e' : js_string * section_config) : bool :=
  negb (occurs (start (snd e)) (end_ (snd e'))) &&
  (str_eqb (fst e) (fst e') ||
   (negb (occurs (start (snd e)) (start (snd e'))) &&
    negb (priority (snd e) =? priority (snd e'))%Z)).

Definition table_ok : bool :=
  forallb (fun e => marker_ok (start (snd e)) &&
                    no_line_feed (end_ (snd e)) &&
                    negb (occurs (end_ (snd e)) []) &&
                    forallb (table_entry_ok e) SECTIONS) SECTIONS.

(** * Sample values *)

Definition config_of (key : js_string) : option section_config :=
  own_get key SECTIONS.

Definition sample_sections : sections_object :=
  [ (CHANGE_NOTE, mkSection (lit "All good") (config_of CHANGE_NOTE));
    (BUILD_SIZE, mkSection (lit "Size: +1KB") (config_of BUILD_SIZE)) ].

Definition sample_body : js_string := buildComment sample_sections.

(** The same sections in a comment with prose and a second identifier
    around them. *)
Definition sample_body_with_prose : js_string :=
  lit "Thanks for the contribution! " ++ CEREBRUS_IDENTIFIER ++ [LF] ++
  sample_body ++ [LF] ++ lit "-- edited by hand".

(** A comment whose Build Size section lost its end marker. *)
Definition corrupted_body : js_string :=
  CEREBRUS_IDENTIFIER ++ [LF; LF] ++
  lit "<!-- Build Size Section -->" ++ [LF; LF] ++ lit "Size: +1KB" ++
  [LF; LF] ++ lit "<!-- Change Note Section -->" ++ [LF; LF] ++
  lit "All good" ++ [LF; LF] ++ lit "<!-- End Change Note Section -->".

(** A content that quotes the markers of another section. *)
Definition quoted_markers : js_string :=
  lit "<!-- Build Size Section --><!-- End Build Size Section -->".

(** A body in which two sections overlap, so that each parsed content
    quotes a marker of the other. *)
Definition overlapping_body : js_string :=
  lit "<!-- Build Size Section -->x<!-- Path Validation Section -->y" ++
  lit "<!-- End Build Size Section -->z<!-- End Path Validation Section -->".

(** A body whose Build Size section quotes the start marker of the Change
    Note section. *)
Definition quoting_body : js_string :=
  lit "<!-- Build Size Section --><!-- Change Note Section -->" ++
  lit "<!-- End Build Size Section -->".

(** * The jobs that write the comment

    build-size-report.js, validate-changenotes.js and the rules job each
    compute one message and hand it to the module above.  The calls to
    GitHub (pr-comment-utils.js), the rules (rules.js) and the change note
    checks (changenote.js) are other files: what they return is an argument
    here, and a job is modelled by the call on the comment that it ends
    with.  Console output is left out. *)

(** The comment that [getExistingComment] found. *)
Record comment := mkComment {
  comment_id : N;
  comment_body : js_string
}.

(** The call a job makes on the comment of the pull request. *)
Inductive action :=
| NoCall
| postComment (fullComment : js_string)
| updateComment (commentId : N) (updatedBody : js_string)
| deleteComment (commentId : N).

(** [existing ? update(existing.body, key, message) : create(key, message)],
    as the three jobs write it. *)
Definition write_section (existingComment : option comment)
    (sectionKey message : js_string) : result action :=
  match existingComment with
  | Some existing =>
      match updateCommentSection (comment_body existing) sectionKey message with
      | Return updatedBody => Return (updateComment (comment_id existing) updatedBody)
      | Throw m => Throw m
      end
  | None =>
      match createCommentWithSection sectionKey message with
      | Return fullComment => Return (postComment fullComment)
      | Throw m => Throw m
      end
  end.

(** ** build-size-report.js

    Sizes are byte counts.  A Number that holds an integer of magnitude
    below 2^53 is modelled by that integer: on such numbers [prSize -
    baseSize] is exact, and so is the division by 1024, a power of two. *)

Definition MAX_SAFE_INTEGER : Z := (2 ^ 53 - 1)%Z.

Definition safe_integer (z : Z) : Prop :=
  (- MAX_SAFE_INTEGER <= z <= MAX_SAFE_INTEGER)%Z.

Fixpoint uint_units (d : Decimal.uint) : js_string :=
  match d with
  | Decimal.Nil => []
  | Decimal.D0 d => 48 :: uint_units d
  | Decimal.D1 d => 49 :: uint_units d
  | Decimal.D2 d => 50 :: uint_units d
  | Decimal.D3 d => 51 :: uint_units d
  | Decimal.D4 d => 52 :: uint_units d
  | Decimal.D5 d => 53 :: uint_units d
  | Decimal.D6 d => 54 :: uint_units d
  | Decimal.D7 d => 55 :: uint_units d
  | Decimal.D8 d => 56 :: uint_units d
  | Decimal.D9 d => 57 :: uint_units d
  end.

(** The decimal digits of a natural number. *)
Definition decimal (n : Z) : js_string := uint_units (N.to_uint (Z.to_N n)).

(** The integer [n] that [toFixed(1)] picks for [bytes / 1024]: the one
    with [n / 10] nearest to the magnitude, the larger of two at a tie. *)
Definition tenths (bytes : Z) : Z := ((10 * Z.abs bytes + 512) / 1024)%Z.

(** [(bytes / 1024).toFixed(1)]: a minus sign for a negative number, the
    digits of [n] with a zero in front when there is only one, and a point
    before the last digit. *)
Definition toFixed1 (bytes : Z) : js_string :=
  (if (bytes <? 0)%Z then lit "-" else []) ++
  decimal (tenths bytes / 10) ++ lit "." ++ decimal (tenths bytes mod 10).

Definition humanize (bytes : Z) : js_string := toFixed1 bytes ++ lit " KB".

Definition direction_increase : js_string :=
  concat
    [ [11014; 65039]; lit " Increase" ].

Definition direction_decrease : js_string :=
  concat
    [ [11015; 65039]; lit " Decrease" ].

Definition direction_no_change : js_string :=
  concat
    [ [10134]; lit " No change" ].

Definition badge_increase : js_string :=
  concat
    [ lit "!["; [55357; 56628]; lit " Significant ";
      lit "Increase](https://img.shields.io/badge/Size-Increase-red)" ].

Definition alert_increase : js_string :=
  concat
    [ [9888; 65039]; lit " **Warning:** Size increased significantly." ].

Definition badge_decrease : js_string :=
  concat
    [ lit "!["; [55357; 57314]; lit " Significant ";
      lit "Decrease](https://img.shields.io/badge/Size-Decrease-brightg";
      lit "reen)" ].

Definition alert_decrease : js_string :=
  concat
    [ [9989]; lit " **Great job!** Size decreased significantly." ].

(** The template that [generateMarkdown] returns. *)
Definition markdownText
    (baseRef base pr direction sign diff badge alert : js_string) : js_string :=
  concat
    [ lit "### "; [55357; 56522];
      lit " Build Size Comparison: `empty.html`"; [LF; LF];
      lit "| Branch | Size |"; [LF]; lit "|--------|------|"; [LF];
      lit "| Base ("; baseRef; lit ") | "; base; lit " |"; [LF];
      lit "| PR    | "; pr; lit " |"; [LF; LF]; lit "**Diff:** **";
      direction; lit ": `"; sign; diff; lit "`**"; [LF; LF]; badge;
      [LF; LF]; alert; [LF] ].

Definition generateMarkdown (prSize baseSize : Z) (baseRef : js_string)
  : js_string :=
  let diff := (prSize - baseSize)%Z in
  let absDiffKB := Z.abs diff in
  let sign := if (diff >=? 0)%Z then lit "+" else [] in
  let direction :=
    if (diff >? 0)%Z then direction_increase
    else if (diff <? 0)%Z then direction_decrease
    else direction_no_change in
  let '(badge, alert) :=
    if (diff >? 20 * 1024)%Z then (badge_increase, alert_increase)
    else if (diff <? - (20 * 1024))%Z then (badge_decrease, alert_decrease)
    else ([], []) in
  markdownText baseRef (humanize baseSize) (humanize prSize) direction sign
    (humanize absDiffKB) badge alert.

(** [\w] without flags. *)
Definition is_word (c : code_unit) : bool :=
  ((48 <=? c) && (c <=? 57)) || ((65 <=? c) && (c <=? 90)) || (c =? 95) ||
  ((97 <=? c) && (c <=? 122)).

(** The class [[^\w./-:]] negated: [\w], the point, and the range that
    [/-:] denotes inside a class, from the slash (47) to the colon (58). *)
Definition ref_char (c : code_unit) : bool :=
  is_word c || (c =? 46) || ((47 <=? c) && (c <=? 58)).

(** [context.baseRef.replace(/[^\w./-:]/g, '')]. *)
Definition sanitize_baseRef (baseRef : js_string) : js_string :=
  filter ref_char baseRef.

(** A Number read from an input: not a number, or an integer. *)
Inductive number :=
| NaN
| Int (z : Z).

(** The inputs read under GitHub Actions, each with the Number made of
    it. *)
Record size_inputs := mkInputs {
  prSizeInput : js_string;
  pr_size : number;
  baseSizeInput : js_string;
  base_size : number
}.

(** The [if (process.env.GITHUB_ACTIONS === 'true')] block: the sizes and
    the ref that the job goes on with.  The third [throw] names a variable,
    [baseRefInput], that is declared nowhere: evaluating the message raises
    the engine's ReferenceError instead. *)
Definition checked_context (inputs : size_inputs) (baseRef : js_string)
  : result (Z * Z * js_string) :=
  match pr_size inputs with
  | NaN => Throw (lit "Invalid pr_size input: " ++ prSizeInput inputs)
  | Int prSize =>
      if (prSize <? 0)%Z
      then Throw (lit "Invalid pr_size input: " ++ prSizeInput inputs)
      else
        match base_size inputs with
        | NaN => Throw (lit "Invalid base_size input: " ++ baseSizeInput inputs)
        | Int baseSize =>
            if (baseSize <=? 0)%Z
            then Throw (lit "Invalid base_size input: " ++ baseSizeInput inputs)
            else
              match sanitize_baseRef baseRef with
              | [] => Throw (lit "baseRefInput is not defined")
              | ref => Return (prSize, baseSize, ref)
              end
        end
  end.

(** [commentSize] under GitHub Actions. *)
Definition commentSize (inputs : size_inputs) (baseRef : js_string)
    (existingComment : option comment) (dryRun : bool) : result action :=
  match checked_context inputs baseRef with
  | Throw m => Throw m
  | Return (prSize, baseSize, ref) =>
      let message := generateMarkdown prSize baseSize ref in
      if dryRun then Return NoCall
      else write_section existingComment BUILD_SIZE message
  end.

(** ** validate-changenotes.js *)

Definition generateSuccessComment (summaries : js_string) : js_string :=
  concat
    [ lit "## "; [9989]; lit " Change Note Status"; [LF; LF];
      lit "All change notes are properly formatted and validated!";
      [LF; LF]; summaries; [LF; LF]; lit "<details>"; [LF];
      lit "<summary>"; [55357; 56534];
      lit " Change Note Guidelines</summary>"; [LF; LF];
      lit "Change notes help track and communicate changes ";
      lit "effectively. See the [full ";
      lit "documentation](https://tiddlywiki.com/prerelease/#Release%20";
      lit "Notes%20and%20Changes) for details."; [LF; LF];
      lit "</details>" ].

(** The template that [generateValidationFailedComment] returns. *)
Definition validationFailedText (errorText : js_string) : js_string :=
  concat
    [ lit "## "; [10060]; lit " Change Note Status"; [LF; LF];
      lit "Change note validation failed. Please fix the following ";
      lit "issues:"; [LF; LF]; errorText; [LF; LF]; lit "---"; [LF; LF];
      [55357; 56538]; lit " **Documentation**: [Release Notes and ";
      lit "Changes](https://tiddlywiki.com/prerelease/#Release%20Notes%";
      lit "20and%20Changes)" ].

Definition generateMissingChangeNoteComment : js_string :=
  concat
    [ lit "## "; [9888; 65039]; lit " Change Note Status"; [LF; LF];
      lit "This PR appears to contain code changes but doesn't include ";
      lit "a change note."; [LF; LF];
      lit "Please add a change note by creating a `.tid` file in ";
      lit "`editions/tw5.com/tiddlers/releasenotes/<version>/`"; [LF; LF];
      [55357; 56538]; lit " **Documentation**: [Release Notes and ";
      lit "Changes](https://tiddlywiki.com/prerelease/#Release%20Notes%";
      lit "20and%20Changes)"; [LF; LF]; [55357; 56481];
      lit " **Note**: If this is a documentation-only change, you can ";
      lit "ignore this message." ].

Definition generateMissingNotesComment : js_string :=
  concat
    [ lit "## "; [9888; 65039]; lit " Change Note Status"; [LF; LF];
      lit "This PR appears to contain code changes and modified files ";
      lit "in the `releasenotes/` directory, but no valid Change Notes ";
      lit "or Impact Notes were found."; [LF; LF];
      lit "Please ensure you've added proper change notes with the ";
      lit "required tags (`$:/tags/ChangeNote` or ";
      lit "`$:/tags/ImpactNote`)."; [LF; LF]; [55357; 56538];
      lit " **Documentation**: [Release Notes and ";
      lit "Changes](https://tiddlywiki.com/prerelease/#Release%20Notes%";
      lit "20and%20Changes)"; [LF; LF];
      lit "Note: If this is a documentation-only change or doesn't ";
      lit "require a change note, you can ignore this message." ].

Definition generateDocOnlyComment : js_string :=
  concat
    [ lit "## "; [9989]; lit " Change Note Status"; [LF; LF];
      lit "This PR contains documentation or configuration changes ";
      lit "that typically don't require a change note." ].

Definition generateDocOnlyWithNotesComment : js_string :=
  concat
    [ lit "## "; [9989]; lit " Change Note Status"; [LF; LF];
      lit "This PR contains documentation or configuration changes ";
      lit "(including changes to release notes documentation) that ";
      lit "typically don't require a change note." ].

Definition generateMissingReleasesInfoComment : js_string :=
  concat
    [ lit "## "; [10060]; lit " Change Note Status"; [LF; LF];
      lit "Cannot validate change notes: `ReleasesInfo.multids` file ";
      lit "not found."; [LF; LF];
      lit "This file is required to validate change note fields. ";
      lit "Please ensure it exists in ";
      lit "`editions/tw5.com/tiddlers/releasenotes/`." ].

(** The heading of one file in [errorText]. *)
Definition file_heading_open : js_string :=
  concat [ lit "### "; [55357; 56516]; lit " `" ].

(** One entry of [validation.errors]. *)
Record file_errors := mkErrors {
  file : js_string;
  issues : list js_string
}.

(** The two loops that build [errorText]. *)
Definition issue_lines (issues : list js_string) : js_string :=
  fold_left (fun errorText issue => errorText ++ lit "- " ++ issue ++ [LF])
    issues [].

Definition error_block (e : file_errors) : js_string :=
  file_heading_open ++ file e ++ lit "`" ++ [LF; LF] ++
  issue_lines (issues e) ++ [LF].

Definition generateValidationFailedComment (errors : list file_errors)
  : js_string :=
  let errorText :=
    fold_left
      (fun errorText e =>
         let errorText :=
           errorText ++ file_heading_open ++ file e ++ lit "`" ++ [LF; LF] in
         let errorText :=
           fold_left
             (fun errorText issue => errorText ++ lit "- " ++ issue ++ [LF])
             (issues e) errorText in
         errorText ++ [LF])
      errors [] in
  validationFailedText errorText.

(** What [validateChangeNotesFromContent] returned. *)
Record validation_result := mkValidation {
  success : bool;
  errors : list file_errors
}.

(** What the job has fetched and what the checks of changenote.js said. *)
Record change_note_facts := mkFacts {
  needsChangeNote : bool;
  releaseNotesFiles : list js_string;
  releasesInfoContent : option js_string;
  validation : validation_result;
  summaries : js_string;
  hasActualNotes : bool
}.

(** [!releasesInfoContent]: [null] or the empty string. *)
Definition missing (fetched : option js_string) : bool :=
  match fetched with
  | None => true
  | Some [] => true
  | Some (_ :: _) => false
  end.

(** The branches that set [commentBody] and [validationPassed]. *)
Definition change_note_comment (facts : change_note_facts) : js_string * bool :=
  let hasChangeNotes := (0 <? length (releaseNotesFiles facts))%nat in
  if hasChangeNotes then
    if missing (releasesInfoContent facts)
    then (generateMissingReleasesInfoComment, false)
    else if success (validation facts) then
      if needsChangeNote facts
      then (generateSuccessComment (summaries facts), true)
      else (generateDocOnlyWithNotesComment, true)
    else if negb (hasActualNotes facts) && needsChangeNote facts
    then (generateMissingNotesComment, false)
    else if negb (hasActualNotes facts)
    then (generateDocOnlyWithNotesComment, true)
    else (generateValidationFailedComment (errors (validation facts)), false)
  else if needsChangeNote facts
  then (generateMissingChangeNoteComment, false)
  else (generateDocOnlyComment, true).

(** [validateChangeNotes]: the call on the comment, and then the value
    returned ([{ success: true }]) or the error thrown. *)
Definition validateChangeNotes (facts : change_note_facts)
    (existingComment : option comment) (dryRun : bool)
  : action * result bool :=
  let '(commentBody, validationPassed) := change_note_comment facts in
  let finish (done : action) : action * result bool :=
    if negb validationPassed
    then (done, Throw (lit "Change note validation failed"))
    else (done, Return validationPassed) in
  if negb dryRun then
    match write_section existingComment CHANGE_NOTE commentBody with
    | Return call => finish call
    | Throw m => (NoCall, Throw m)
    end
  else finish NoCall.

(** ** The rules job *)

(** A rule of rules.js. *)
Record rule := mkRule {
  rule_name : js_string;
  condition : js_string -> list js_string -> bool;
  rule_message : js_string;
  stopProcessing : bool
}.

(** The loop over the rules: the messages pushed, and [abort]. *)
Fixpoint processRules (rules : list rule) (baseRef : js_string)
    (changedFiles : list js_string) (messages : list js_string)
  : list js_string * bool :=
  match rules with
  | [] => (messages, false)
  | r :: rest =>
      if condition r baseRef changedFiles then
        let messages := messages ++ [ [LF; LF] ++ rule_message r ] in
        if stopProcessing r then (messages, true)
        else processRules rest baseRef changedFiles messages
      else processRules rest baseRef changedFiles messages
  end.

(** A string in a condition: the empty one is falsy. *)
Definition truthy_string (s : js_string) : bool :=
  match s with
  | [] => false
  | _ :: _ => true
  end.

Definition applyRules (rules : list rule) (baseRef : js_string)
    (changedFiles : list js_string) (existing : option comment)
    (dryRun : bool) : result action :=
  let '(messages, abort) := processRules rules baseRef changedFiles [] in
  if (0 <? length messages)%nat && negb abort then
    let pathMessage := trim (join [LF] messages) in
    if dryRun then Return NoCall
    else write_section existing PATH_VALIDATION pathMessage
  else
    match existing with
    | Some e =>
        if negb dryRun then
          match removeCommentSection (comment_body e) PATH_VALIDATION with
          | Throw m => Throw m
          | Return (Some updatedBody) =>
              if truthy_string updatedBody
              then if negb (str_eqb updatedBody (comment_body e))
                   then Return (updateComment (comment_id e) updatedBody)
                   else Return NoCall
              else Return (deleteComment (comment_id e))
          | Return None => Return (deleteComment (comment_id e))
          end
        else Return NoCall
    | None => Return NoCall
    end.


(** * Notions for the properties of the jobs *)


(** The body a job starts from: the one of the comment found, or none. *)
Definition existing_body (existing : option comment) : js_string :=
  match existing with
  | Some e => comment_body e
  | None => []
  end.

(** Reading a size back from the text [humanize] prints: the digits before
    the point, one digit after it, a space and [KB]; the value is in tenths
    of a KB. *)
Fixpoint units_uint (s : js_string) : option Decimal.uint :=
  match s with
  | [] => Some Decimal.Nil
  | c :: s' =>
      match units_uint s' with
      | None => None
      | Some d =>
          if c =? 48 then Some (Decimal.D0 d)
          else if c =? 49 then Some (Decimal.D1 d)
          else if c =? 50 then Some (Decimal.D2 d)
          else if c =? 51 then Some (Decimal.D3 d)
          else if c =? 52 then Some (Decimal.D4 d)
          else if c =? 53 then Some (Decimal.D5 d)
          else if c =? 54 then Some (Decimal.D6 d)
          else if c =? 55 then Some (Decimal.D7 d)
          else if c =? 56 then Some (Decimal.D8 d)
          else if c =? 57 then Some (Decimal.D9 d)
          else None
      end
  end.

Definition read_decimal (s : js_string) : option Z :=
  option_map (fun d => Z.of_N (N.of_uint d)) (units_uint s).

Fixpoint split_at (sep : code_unit) (s : js_string)
  : option (js_string * js_string) :=
  match s with
  | [] => None
  | c :: s' =>
      if c =? sep then Some ([], s')
      else match split_at sep s' with
           | Some (before, after) => Some (c :: before, after)
           | None => None
           end
  end.

Definition read_KB (s : js_string) : option Z :=
  match split_at 46 s with
  | Some (whole, rest) =>
      match split_at 32 rest with
      | Some ([digit], unit) =>
          if str_eqb unit (lit "KB") then
            match read_decimal whole, read_decimal [digit] with
            | Some a, Some f => Some (10 * a + f)%Z
            | _, _ => None
            end
          else None
      | _ => None
      end
  | None => None
  end.

(** No code unit of the string is a [<], the first character of every
    marker. *)
Definition no_angle (s : js_string) : bool :=
  forallb (fun c => negb (c =? 60)) s.

(** The fixed text around the parameter of the two templates that have
    one. *)
Definition success_head : js_string :=
  concat
    [ lit "## "; [9989]; lit " Change Note Status"; [LF; LF];
      lit "All change notes are properly formatted and validated!";
      [LF; LF] ].

Definition success_tail : js_string :=
  concat
    [ [LF; LF]; lit "<details>"; [LF];
      lit "<summary>"; [55357; 56534];
      lit " Change Note Guidelines</summary>"; [LF; LF];
      lit "Change notes help track and communicate changes ";
      lit "effectively. See the [full ";
      lit "documentation](https://tiddlywiki.com/prerelease/#Release%20";
      lit "Notes%20and%20Changes) for details."; [LF; LF];
      lit "</details>" ].

Definition failed_head : js_string :=
  concat
    [ lit "## "; [10060]; lit " Change Note Status"; [LF; LF];
      lit "Change note validation failed. Please fix the following ";
      lit "issues:"; [LF; LF] ].

Definition failed_tail : js_string :=
  concat
    [ [LF; LF]; lit "---"; [LF; LF];
      [55357; 56538]; lit " **Documentation**: [Release Notes and ";
      lit "Changes](https://tiddlywiki.com/prerelease/#Release%20Notes%";
      lit "20and%20Changes)" ].

(** The messages of the rules that match. *)
Definition matched_messages (rules : list rule) (baseRef : js_string)
    (changedFiles : list js_string) : list js_string :=
  map (fun r => [LF; LF] ++ rule_message r)
      (filter (fun r => condition r baseRef changedFiles) rules).

(** Some rule that matches says to stop. *)
Definition stop_matched (rules : list rule) (baseRef : js_string)
    (changedFiles : list js_string) : bool :=
  existsb (fun r => condition r baseRef changedFiles && stopProcessing r) rules.


(** The call that writes [body]: an update of the comment found, or a new
    comment. *)
Definition write_call (existing : option comment) (body : js_string) : action :=
  match existing with
  | Some e => updateComment (comment_id e) body
  | None => postComment body
  end.



(** Two rules for the examples: one that reports changes under [core/], and
    one that stops the job on the branch [legacy]. *)
Definition sample_rules : list rule :=
  [ mkRule (lit "core changes")
      (fun _ changedFiles => existsb (starts_with (lit "core/")) changedFiles)
      (lit "Changes under core/ need a review.") false;
    mkRule (lit "legacy branch")
      (fun baseRef _ => str_eqb baseRef (lit "legacy"))
      (lit "The legacy branch takes no changes.") true ].


(** * Properties *)

(** ** Strings *)

Lemma str_eqb_eq (a b : js_string) : str_eqb a b = true <-> a = b.
Proof.
  revert b; induction a as [|x a IH]; intros [|y b]; simpl;
    try (split; [discriminate | congruence]); try tauto.
  rewrite andb_true_iff, N.eqb_eq, IH. split.
  - intros [-> ->]; reflexivity.
  - intros E; injection E; auto.
Qed.

Lemma str_eqb_refl (a : js_string) : str_eqb a a = true.
Proof. apply str_eqb_eq; reflexivity. Qed.

Lemma str_eqb_neq (a b : js_string) : str_eqb a b = false <-> a <> b.
Proof.
  rewrite <- str_eqb_eq. destruct (str_eqb a b); split; congruence.
Qed.

Lemma starts_with_app (p s : js_string) : starts_with p (p ++ s) = true.
Proof.
  induction p as [|x p IH]; simpl; [reflexivity|].
  now rewrite N.eqb_refl, IH.
Qed.

Lemma starts_with_iff (p s : js_string) :
  starts_with p s = true <-> exists r, s = p ++ r.
Proof.
  split.
  - revert s; induction p as [|x p IH]; intros s H.
    + exists s; reflexivity.
    + destruct s as [|y s]; [discriminate|]. simpl in H.
      apply andb_true_iff in H as [E H]. apply N.eqb_eq in E; subst y.
      destruct (IH _ H) as [r ->]. exists r; reflexivity.
  - intros [r ->]; apply starts_with_app.
Qed.

Lemma skipn_length_app (p s : js_string) : skipn (length p) (p ++ s) = s.
Proof. induction p; simpl; auto. Qed.

Lemma occurs_starts (p s : js_string) :
  starts_with p s = true -> occurs p s = true.
Proof. destruct s; simpl; intros ->; reflexivity. Qed.

Lemma occurs_iff (p s : js_string) :
  occurs p s = true <-> exists a b, s = a ++ p ++ b.
Proof.
  split.
  - induction s as [|c s IH]; simpl; rewrite orb_true_iff.
    + intros [H|H]; [|discriminate].
      apply starts_with_iff in H as [r ->]. exists [], r; reflexivity.
    + intros [H|H].
      * apply starts_with_iff in H as [r ->]. exists [], r; reflexivity.
      * destruct (IH H) as (a & b & ->). exists (c :: a), b; reflexivity.
  - intros (a & b & ->). induction a as [|c a IH]; simpl.
    + apply occurs_starts, starts_with_app.
    + rewrite IH; apply orb_true_r.
Qed.

Lemma occurs_false_cons (p : js_string) c s :
  occurs p (c :: s) = false ->
  starts_with p (c :: s) = false /\ occurs p s = false.
Proof. simpl; intros H; apply orb_false_iff in H; exact H. Qed.

Lemma occurs_false_starts (p s : js_string) :
  occurs p s = false -> starts_with p s = false.
Proof. destruct s; simpl; intros H; apply orb_false_iff in H; tauto. Qed.

(** A marker without line feed cannot begin inside a chunk and run over the
    line feed that ends it. *)
Lemma starts_with_chunk (p c rest : js_string) :
  ~ In LF p -> starts_with p (c ++ LF :: rest) = true -> starts_with p c = true.
Proof.
  revert c; induction p as [|x p IH]; intros c Hnl H; [reflexivity|].
  destruct c as [|y c]; simpl in *.
  - apply andb_true_iff in H as [E _]. apply N.eqb_eq in E. tauto.
  - apply andb_true_iff in H as [E H]. rewrite E; simpl.
    apply IH with (c := c); tauto.
Qed.

Lemma starts_with_chunk_false (p c rest : js_string) :
  ~ In LF p -> occurs p c = false -> starts_with p (c ++ LF :: rest) = false.
Proof.
  intros Hnl Hc. destruct (starts_with p (c ++ LF :: rest)) eqn:E; auto.
  apply starts_with_chunk in E; auto.
  rewrite (occurs_false_starts _ _ Hc) in E; discriminate.
Qed.

(** ** The regular expression *)

Lemma lazy_until_here (en s : js_string) : lazy_until en (en ++ s) = Some [].
Proof. destruct (en ++ s) eqn:E; simpl; rewrite <- E, starts_with_app; auto. Qed.

Lemma lazy_until_skip_chunk (en c rest : js_string) :
  ~ In LF en -> occurs en c = false ->
  lazy_until en (c ++ LF :: rest) =
  option_map (fun cap => c ++ LF :: cap) (lazy_until en rest).
Proof.
  intros Hnl. induction c as [|a c IH]; intros Hc.
  - simpl app.
    assert (E := starts_with_chunk_false en [] rest Hnl Hc). simpl app in E.
    simpl. rewrite E. destruct (lazy_until en rest); reflexivity.
  - assert (E := starts_with_chunk_false en (a :: c) rest Hnl Hc).
    apply occurs_false_cons in Hc as [_ Hc].
    simpl app in *. simpl. rewrite E, (IH Hc).
    destruct (lazy_until en rest); reflexivity.
Qed.

Lemma lazy_until_found (en s : js_string) :
  (exists a b, s = a ++ en ++ b) -> lazy_until en s <> None.
Proof.
  intros (a & b & ->). induction a as [|c a IH].
  - simpl app; rewrite lazy_until_here; discriminate.
  - simpl. destruct (starts_with en (c :: a ++ en ++ b)); [discriminate|].
    destruct (lazy_until en (a ++ en ++ b)); [discriminate | contradiction].
Qed.

Lemma lazy_until_spec (en s cap : js_string) :
  lazy_until en s = Some cap -> exists b, s = cap ++ en ++ b.
Proof.
  revert cap; induction s as [|c s IH]; intros cap; simpl.
  - destruct (starts_with en []) eqn:E; [|discriminate].
    intros [= <-]. apply starts_with_iff in E as [r E]. exists r; exact E.
  - destruct (starts_with en (c :: s)) eqn:E.
    + intros [= <-]. apply starts_with_iff in E as [r E]. exists r; exact E.
    + destruct (lazy_until en s) as [cap'|]; [|discriminate].
      intros [= <-]. destruct (IH _ eq_refl) as [b ->]. exists b; reflexivity.
Qed.

Lemma match_here_app (st en s : js_string) :
  match_here st en (st ++ s) = lazy_until en s.
Proof. unfold match_here. now rewrite starts_with_app, skipn_length_app. Qed.

Lemma regex_match_here (st en s cap : js_string) :
  lazy_until en s = Some cap -> regex_match st en (st ++ s) = Some cap.
Proof.
  intros H. destruct (st ++ s) eqn:E; simpl; rewrite <- E, match_here_app, H; auto.
Qed.

Lemma regex_match_skip_chunk (st en c rest : js_string) :
  ~ In LF st -> occurs st c = false ->
  regex_match st en (c ++ LF :: rest) = regex_match st en rest.
Proof.
  intros Hnl. induction c as [|a c IH]; intros Hc.
  - assert (E := starts_with_chunk_false st [] rest Hnl Hc). simpl app in *.
    simpl. unfold match_here at 1. rewrite E. reflexivity.
  - assert (E := starts_with_chunk_false st (a :: c) rest Hnl Hc).
    apply occurs_false_cons in Hc as [_ Hc]. simpl app in *.
    simpl. unfold match_here at 1. rewrite E. exact (IH Hc).
Qed.

Lemma regex_match_none (st en s : js_string) :
  occurs st s = false -> regex_match st en s = None.
Proof.
  induction s as [|c s IH]; simpl; intros H; apply orb_false_iff in H as [E H];
    unfold match_here; rewrite E; auto.
Qed.

(** The match succeeds exactly when some start marker has an end marker
    after it. *)
Lemma regex_match_found (st en s : js_string) :
  (exists a m b, s = a ++ st ++ m ++ en ++ b) -> regex_match st en s <> None.
Proof.
  intros (a & m & b & ->). induction a as [|c a IH].
  - simpl app. assert (H : lazy_until en (m ++ en ++ b) <> None)
      by (apply lazy_until_found; eauto).
    destruct (lazy_until en (m ++ en ++ b)) as [cap|] eqn:E; [|contradiction].
    rewrite (regex_match_here st _ _ _ E); discriminate.
  - simpl. destruct (match_here st en (c :: a ++ st ++ m ++ en ++ b));
      [discriminate | exact IH].
Qed.

Lemma regex_match_spec (st en s cap : js_string) :
  regex_match st en s = Some cap -> exists a b, s = a ++ st ++ cap ++ en ++ b.
Proof.
  assert (Hhere : forall s, match_here st en s = Some cap ->
                            exists b, s = st ++ cap ++ en ++ b).
  { intros s0. unfold match_here. destruct (starts_with st s0) eqn:E; [|discriminate].
    apply starts_with_iff in E as [r ->]. rewrite skipn_length_app.
    intros H. apply lazy_until_spec in H as [b ->]. exists b; reflexivity. }
  induction s as [|c s IH]; simpl.
  - destruct (match_here st en []) eqn:E; [|discriminate].
    intros [= ->]. destruct (Hhere _ E) as [b Hb]. exists [], b; exact Hb.
  - destruct (match_here st en (c :: s)) eqn:E.
    + intros [= ->]. destruct (Hhere _ E) as [b Hb]. exists [], b; exact Hb.
    + intros H. destruct (IH H) as (a & b & ->). exists (c :: a), b; reflexivity.
Qed.

(** ** Documents as chunks joined by line feeds *)

Lemma join_cons (c : js_string) (rest : list js_string) :
  rest <> [] -> join [LF] (c :: rest) = c ++ LF :: join [LF] rest.
Proof. destruct rest; [congruence | reflexivity]. Qed.

Lemma join_app (pre chunks : list js_string) :
  chunks <> [] -> join [LF] (pre ++ chunks) = lines_text pre ++ join [LF] chunks.
Proof.
  intros Hne. induction pre as [|c pre IH]; [reflexivity|].
  simpl app. rewrite join_cons by (destruct pre; simpl; [assumption | discriminate]).
  rewrite IH. unfold lines_text; simpl. rewrite <- !app_assoc. reflexivity.
Qed.

Lemma regex_match_skip_chunks (st en : js_string) (pre chunks : list js_string) :
  ~ In LF st -> chunks_free st pre -> chunks <> [] ->
  regex_match st en (join [LF] (pre ++ chunks)) =
  regex_match st en (join [LF] chunks).
Proof.
  intros Hnl Hpre Hne. induction Hpre as [|c pre Hc _ IH]; [reflexivity|].
  simpl app. rewrite join_cons by (destruct pre; simpl; [assumption | discriminate]).
  rewrite regex_match_skip_chunk by assumption. exact IH.
Qed.

Lemma regex_match_no_chunk (st en : js_string) (chunks : list js_string) :
  st <> [] -> ~ In LF st -> chunks_free st chunks ->
  regex_match st en (join [LF] chunks) = None.
Proof.
  intros Hst Hnl H. induction H as [|c rest Hc Hrest IH].
  - apply regex_match_none. destruct st; [congruence | reflexivity].
  - destruct rest as [|c' rest].
    + apply regex_match_none; exact Hc.
    + rewrite join_cons by discriminate.
      rewrite regex_match_skip_chunk by assumption. exact IH.
Qed.

Lemma lazy_until_skip_chunks (en : js_string) (pre chunks : list js_string) :
  ~ In LF en -> chunks_free en pre -> chunks <> [] ->
  lazy_until en (join [LF] (pre ++ chunks)) =
  option_map (app (lines_text pre)) (lazy_until en (join [LF] chunks)).
Proof.
  intros Hnl Hpre Hne. induction Hpre as [|c pre Hc _ IH].
  - simpl. destruct (lazy_until en (join [LF] chunks)); reflexivity.
  - simpl app. rewrite join_cons by (destruct pre; simpl; [assumption | discriminate]).
    rewrite lazy_until_skip_chunk by assumption. rewrite IH.
    destruct (lazy_until en (join [LF] chunks)); simpl; [|reflexivity].
    unfold lines_text; simpl. rewrite <- !app_assoc. reflexivity.
Qed.

Lemma occurs_nil_false (p : js_string) : p <> [] -> occurs p [] = false.
Proof. destruct p; [congruence | reflexivity]. Qed.

Lemma join_starts (c : js_string) (rest : list js_string) :
  exists r, join [LF] (c :: rest) = c ++ r.
Proof.
  destruct rest as [|c' rest].
  - exists []; simpl; now rewrite app_nil_r.
  - exists (LF :: join [LF] (c' :: rest)); reflexivity.
Qed.

(** The match in a document whose chunks before the start marker are free of
    it, and whose chunks between the markers are free of the end marker: the
    capture is the text between the two marker chunks. *)
Lemma regex_match_chunks (st en : js_string) (pre mid post : list js_string) :
  ~ In LF st -> ~ In LF en -> en <> [] ->
  chunks_free st pre -> chunks_free en mid ->
  regex_match st en (join [LF] (pre ++ st :: mid ++ en :: post)) =
  Some (LF :: lines_text mid).
Proof.
  intros Hst Hen Hne Hpre Hmid.
  rewrite regex_match_skip_chunks by (auto; discriminate).
  rewrite join_cons by (destruct mid; discriminate).
  apply regex_match_here.
  change (LF :: join [LF] (mid ++ en :: post))
    with ([] ++ LF :: join [LF] (mid ++ en :: post)).
  rewrite lazy_until_skip_chunk by (auto using occurs_nil_false).
  rewrite lazy_until_skip_chunks by (auto; discriminate).
  destruct (join_starts en post) as [r ->].
  rewrite lazy_until_here. simpl. now rewrite app_nil_r.
Qed.

(** ** trim *)

Lemma trim_start_app_ws (a s : js_string) :
  forallb is_white_space a = true -> trim_start (a ++ s) = trim_start s.
Proof.
  induction a as [|c a IH]; simpl; [reflexivity|].
  intros H. apply andb_true_iff in H as [-> H]. auto.
Qed.

Lemma trim_start_all_ws (s : js_string) :
  trim_start s = [] -> forallb is_white_space s = true.
Proof.
  induction s as [|c s IH]; simpl; [reflexivity|].
  destruct (is_white_space c); [auto | discriminate].
Qed.

Lemma trim_start_app (s b : js_string) :
  trim_start s <> [] -> trim_start (s ++ b) = trim_start s ++ b.
Proof.
  induction s as [|c s IH]; simpl; [congruence|].
  destruct (is_white_space c); auto.
Qed.

Lemma trim_end_app_ws (s b : js_string) :
  forallb is_white_space b = true -> trim_end (s ++ b) = trim_end s.
Proof.
  intros H. unfold trim_end. rewrite rev_app_distr, trim_start_app_ws; auto.
  rewrite forallb_forall in *. intros x Hx. apply H, in_rev; exact Hx.
Qed.

(** White space around a string does not survive [trim]. *)
Lemma trim_pad (a s b : js_string) :
  forallb is_white_space a = true -> forallb is_white_space b = true ->
  trim (a ++ s ++ b) = trim s.
Proof.
  intros Ha Hb. unfold trim. rewrite trim_start_app_ws by assumption.
  destruct (trim_start s) as [|c t] eqn:E.
  - rewrite trim_start_app_ws by (apply trim_start_all_ws; exact E).
    assert (Hb' : trim_start b = [])
      by (rewrite <- (app_nil_r b), trim_start_app_ws; auto).
    rewrite Hb'. reflexivity.
  - rewrite trim_start_app by congruence. rewrite E.
    apply trim_end_app_ws; assumption.
Qed.

Lemma trim_start_idem (s : js_string) : trim_start (trim_start s) = trim_start s.
Proof.
  induction s as [|c s IH]; simpl; [reflexivity|].
  destruct (is_white_space c) eqn:E; [exact IH|]. simpl. now rewrite E.
Qed.

(** ** Objects *)

Section ObjectFacts.
Context {V : Type}.
Implicit Types (o : object V) (k : js_string) (v : V).

Lemma own_get_put_same k v o : own_get k (own_put k v o) = Some v.
Proof.
  induction o as [|[k' v'] o IH]; simpl.
  - now rewrite str_eqb_refl.
  - destruct (str_eqb k k') eqn:E; simpl; rewrite E; auto.
Qed.

Lemma own_get_put_other k k' v o :
  k <> k' -> own_get k' (own_put k v o) = own_get k' o.
Proof.
  intros Hne. induction o as [|[k0 v0] o IH]; simpl.
  - assert (E : str_eqb k' k = false) by (apply str_eqb_neq; congruence).
    now rewrite E.
  - destruct (str_eqb k k0) eqn:E; simpl; [|now rewrite IH].
    apply str_eqb_eq in E; subst k0.
    assert (E : str_eqb k' k = false) by (apply str_eqb_neq; congruence).
    now rewrite E.
Qed.

Lemma own_get_None k o : own_get k o = None <-> ~ In k (keys o).
Proof.
  induction o as [|[k' v'] o IH]; simpl; [tauto|].
  destruct (str_eqb k k') eqn:E.
  - apply str_eqb_eq in E; subst. split; [discriminate | tauto].
  - apply str_eqb_neq in E. rewrite IH. split; [intros H [?|?] | ]; intuition.
Qed.

Lemma own_get_In k v o : own_get k o = Some v -> In (k, v) o.
Proof.
  induction o as [|[k' v'] o IH]; simpl; [discriminate|].
  destruct (str_eqb k k') eqn:E; [|auto].
  apply str_eqb_eq in E; subst. intros [= ->]; auto.
Qed.

Lemma In_own_get k v o : NoDup (keys o) -> In (k, v) o -> own_get k o = Some v.
Proof.
  induction o as [|[k' v'] o IH]; simpl; [tauto|].
  intros Hnd [E|Hin]; inversion Hnd as [|? ? Hk Hnd']; subst.
  - injection E as -> ->. now rewrite str_eqb_refl.
  - destruct (str_eqb k k') eqn:E; [|auto].
    apply str_eqb_eq in E; subst. exfalso; apply Hk.
    change k' with (fst (k', v)). apply in_map; exact Hin.
Qed.

Lemma keys_put k v o :
  keys (own_put k v o) =
  match own_get k o with Some _ => keys o | None => keys o ++ [k] end.
Proof.
  induction o as [|[k' v'] o IH]; simpl; [reflexivity|].
  destruct (str_eqb k k') eqn:E; simpl; [reflexivity|].
  rewrite IH. destruct (own_get k o); reflexivity.
Qed.

Lemma NoDup_keys_put k v o : NoDup (keys o) -> NoDup (keys (own_put k v o)).
Proof.
  intros Hnd. rewrite keys_put. destruct (own_get k o) eqn:E; [assumption|].
  apply own_get_None in E.
  apply NoDup_rev in Hnd. rewrite <- (rev_involutive (keys o ++ [k])).
  apply NoDup_rev. rewrite rev_app_distr. simpl. constructor; auto.
  rewrite <- in_rev. assumption.
Qed.

Lemma In_put (e : js_string * V) k v o :
  In e (own_put k v o) -> e = (k, v) \/ In e o.
Proof.
  induction o as [|[k' v'] o IH]; simpl.
  - intros [<-|[]]; auto.
  - destruct (str_eqb k k') eqn:E; simpl.
    + apply str_eqb_eq in E; subst. intros [<-|H]; auto.
    + intros [<-|H]; auto. destruct (IH H); auto.
Qed.

Lemma Forall_put (P : js_string * V -> Prop) k v o :
  P (k, v) -> Forall P o -> Forall P (own_put k v o).
Proof.
  intros Hk Ho. apply Forall_forall. intros e He.
  destruct (In_put _ _ _ _ He) as [->|Hin]; [assumption|].
  rewrite Forall_forall in Ho; auto.
Qed.

Lemma In_delete (e : js_string * V) k o : In e (own_delete k o) -> In e o.
Proof.
  induction o as [|[k' v'] o IH]; simpl; [tauto|].
  destruct (str_eqb k k'); simpl; intuition.
Qed.

Lemma keys_delete_incl k k' o : In k' (keys (own_delete k o)) -> In k' (keys o).
Proof.
  induction o as [|[k0 v0] o IH]; simpl; [tauto|].
  destruct (str_eqb k k0); simpl; intuition.
Qed.

Lemma NoDup_keys_delete k o : NoDup (keys o) -> NoDup (keys (own_delete k o)).
Proof.
  induction o as [|[k' v'] o IH]; simpl; [auto|].
  intros Hnd; inversion Hnd as [|? ? Hk Hnd']; subst.
  destruct (str_eqb k k'); simpl; [assumption|].
  constructor; auto. intros H; apply Hk. eapply keys_delete_incl; eauto.
Qed.

Lemma Forall_delete (P : js_string * V -> Prop) k o :
  Forall P o -> Forall P (own_delete k o).
Proof.
  rewrite !Forall_forall. intros H e He. apply H. eapply In_delete; eauto.
Qed.

Lemma own_get_delete_same k o :
  NoDup (keys o) -> own_get k (own_delete k o) = None.
Proof.
  induction o as [|[k' v'] o IH]; simpl; [reflexivity|].
  intros Hnd; inversion Hnd as [|? ? Hk Hnd']; subst.
  destruct (str_eqb k k') eqn:E; simpl.
  - apply str_eqb_eq in E; subst. apply own_get_None; assumption.
  - rewrite E; auto.
Qed.

Lemma own_get_delete_other k k' o :
  k <> k' -> own_get k' (own_delete k o) = own_get k' o.
Proof.
  intros Hne. induction o as [|[k0 v0] o IH]; simpl; [reflexivity|].
  destruct (str_eqb k k0) eqn:E; simpl.
  - apply str_eqb_eq in E; subst.
    assert (E : str_eqb k' k0 = false) by (apply str_eqb_neq; congruence).
    now rewrite E.
  - now rewrite IH.
Qed.

Lemma own_delete_absent k o : own_get k o = None -> own_delete k o = o.
Proof.
  induction o as [|[k' v'] o IH]; simpl; [reflexivity|].
  destruct (str_eqb k k'); [discriminate|]. intros H; now rewrite IH.
Qed.


Lemma NoDup_entries o : NoDup (keys o) -> NoDup o.
Proof. apply NoDup_map_inv. Qed.

(** Two objects that hold the same properties list them in some order. *)
Lemma same_properties_Permutation o o' :
  NoDup (keys o) -> NoDup (keys o') ->
  (forall k, own_get k o = own_get k o') -> Permutation o o'.
Proof.
  intros Hnd Hnd' Hget.
  apply NoDup_Permutation; auto using NoDup_entries.
  intros [k v]; split; intros Hin.
  - apply own_get_In. rewrite <- Hget. apply In_own_get; assumption.
  - apply own_get_In. rewrite Hget. apply In_own_get; assumption.
Qed.

Lemma Permutation_own_get o o' k :
  NoDup (keys o) -> Permutation o o' -> own_get k o = own_get k o'.
Proof.
  intros Hnd Hp.
  assert (Hnd' : NoDup (keys o'))
    by (eapply Permutation_NoDup; [apply Permutation_map; exact Hp | exact Hnd]).
  destruct (own_get k o) as [v|] eqn:E.
  - symmetry. apply In_own_get; auto.
    eapply Permutation_in; [exact Hp | apply own_get_In; exact E].
  - symmetry. apply own_get_None. apply own_get_None in E.
    intros Hin; apply E.
    eapply Permutation_in; [apply Permutation_sym, Permutation_map; exact Hp |].
    exact Hin.
Qed.
End ObjectFacts.

(** ** Array.prototype.sort *)

Section SortFacts.
Context {A : Type} (cmp : A -> A -> Z) (f : A -> Z) (P : A -> Prop).
Hypothesis cmp_key : forall a b, P a -> P b -> cmp a b = (f a - f b)%Z.

Lemma insert_sorted_perm x l : Permutation (insert_sorted cmp x l) (x :: l).
Proof.
  induction l as [|y l IH]; simpl; [reflexivity|].
  destruct (cmp x y <=? 0)%Z; [reflexivity|].
  rewrite IH. apply perm_swap.
Qed.

Lemma array_sort_perm l : Permutation (array_sort cmp l) l.
Proof.
  induction l as [|x l IH]; simpl; [reflexivity|].
  rewrite insert_sorted_perm. now constructor.
Qed.

Lemma insert_sorted_sorted x l :
  P x -> Forall P l -> StronglySorted (key_le f) l ->
  StronglySorted (key_le f) (insert_sorted cmp x l).
Proof.
  intros Hx Hl Hs. induction Hs as [|y l Hs IH Hy]; simpl.
  - repeat constructor.
  - inversion Hl as [|? ? Py Pl]; subst.
    destruct (cmp x y <=? 0)%Z eqn:E.
    + apply Z.leb_le in E. rewrite cmp_key in E by assumption.
      constructor; [constructor; assumption|].
      constructor; [unfold key_le; lia|].
      eapply Forall_impl; [|exact Hy]. unfold key_le; intros; lia.
    + apply Z.leb_gt in E. rewrite cmp_key in E by assumption.
      constructor; [auto|].
      eapply Permutation_Forall;
        [apply Permutation_sym, insert_sorted_perm|].
      constructor; [unfold key_le; lia | assumption].
Qed.

Lemma array_sort_sorted l :
  Forall P l -> StronglySorted (key_le f) (array_sort cmp l).
Proof.
  induction 1 as [|x l Hx Hl IH]; simpl; [constructor|].
  apply insert_sorted_sorted; auto.
  eapply Permutation_Forall; [apply Permutation_sym, array_sort_perm | exact Hl].
Qed.

Lemma sorted_strict l :
  NoDup (map f l) -> StronglySorted (key_le f) l -> StronglySorted (key_lt f) l.
Proof.
  intros Hnd Hs. induction Hs as [|x l Hs IH Hx]; [constructor|].
  simpl in Hnd. inversion Hnd as [|? ? Hnin Hnd']; subst.
  constructor; [auto|].
  rewrite Forall_forall in *. intros y Hy. specialize (Hx y Hy).
  unfold key_le, key_lt in *.
  assert (f x <> f y) by (intros E; apply Hnin; rewrite E; now apply in_map).
  lia.
Qed.

Lemma strict_sorted_unique l1 l2 :
  StronglySorted (key_lt f) l1 -> StronglySorted (key_lt f) l2 ->
  Permutation l1 l2 -> l1 = l2.
Proof.
  intros H1; revert l2. induction H1 as [|a l1 H1 IH Ha]; intros l2 H2 Hp.
  - apply Permutation_nil in Hp; auto.
  - destruct H2 as [|b l2 H2 Hb].
    + apply Permutation_sym, Permutation_nil in Hp; discriminate.
    + assert (Eab : a = b).
      { assert (Hina : In a (b :: l2))
          by (eapply Permutation_in; [exact Hp | left; reflexivity]).
        assert (Hinb : In b (a :: l1))
          by (eapply Permutation_in;
              [apply Permutation_sym; exact Hp | left; reflexivity]).
        rewrite Forall_forall in Ha, Hb. unfold key_lt in *.
        destruct Hina as [->|Hina]; [reflexivity|].
        destruct Hinb as [->|Hinb]; [reflexivity|].
        specialize (Ha _ Hinb). specialize (Hb _ Hina). lia. }
      subst b. f_equal. apply IH; auto.
      eapply Permutation_cons_inv; exact Hp.
Qed.

(** With distinct keys the sorted array does not depend on the order of
    the input. *)
Lemma array_sort_order_irrelevant l1 l2 :
  Forall P l1 -> NoDup (map f l1) -> Permutation l1 l2 ->
  array_sort cmp l1 = array_sort cmp l2.
Proof.
  intros HP Hnd Hp.
  assert (HP2 : Forall P l2) by (eapply Permutation_Forall; eauto).
  assert (Hnd2 : NoDup (map f l2))
    by (eapply Permutation_NoDup; [apply Permutation_map; exact Hp | exact Hnd]).
  apply strict_sorted_unique.
  - apply sorted_strict; [|apply array_sort_sorted; assumption].
    eapply Permutation_NoDup; [|exact Hnd].
    apply Permutation_map, Permutation_sym, array_sort_perm.
  - apply sorted_strict; [|apply array_sort_sorted; assumption].
    eapply Permutation_NoDup; [|exact Hnd2].
    apply Permutation_map, Permutation_sym, array_sort_perm.
  - rewrite !array_sort_perm. exact Hp.
Qed.
End SortFacts.

(** ** The section table *)

(** Every marker of the table matches itself and only itself. *)
Lemma markers_are_literal :
  forallb (fun e => literal_pattern (start (snd e)) &&
                    literal_pattern (end_ (snd e))) SECTIONS = true.
Proof. vm_compute. reflexivity. Qed.

Lemma SECTIONS_table_ok : table_ok = true.
Proof. vm_compute. reflexivity. Qed.

Lemma SECTIONS_keys_NoDup : NoDup (keys SECTIONS).
Proof.
  repeat constructor; simpl; intros H;
    repeat (destruct H as [H|H]; [discriminate H|]); exact H.
Qed.

Lemma no_line_feed_spec (p : js_string) : no_line_feed p = true -> ~ In LF p.
Proof.
  unfold no_line_feed. intros H Hin.
  apply negb_true_iff in H.
  assert (E : existsb (N.eqb LF) p = true)
    by (apply existsb_exists; exists LF; split; [assumption | apply N.eqb_refl]).
  congruence.
Qed.

Section TableFacts.
Variables (k : js_string) (c : section_config).
Hypothesis Hk : own_get k SECTIONS = Some c.

Lemma table_entry :
  marker_ok (start c) = true /\ no_line_feed (end_ c) = true /\
  occurs (end_ c) [] = false /\
  forallb (table_entry_ok (k, c)) SECTIONS = true.
Proof.
  assert (H := SECTIONS_table_ok). unfold table_ok in H.
  rewrite forallb_forall in H. specialize (H _ (own_get_In _ _ _ Hk)).
  cbn beta iota delta [snd fst] in H. rewrite !andb_true_iff in H.
  destruct H as [[[H1 H2] H3] H4]. apply negb_true_iff in H3.
  repeat split; assumption.
Qed.

Lemma start_no_line_feed : ~ In LF (start c).
Proof.
  destruct table_entry as [H _]. unfold marker_ok in H.
  rewrite !andb_true_iff in H. apply no_line_feed_spec; tauto.
Qed.

Lemma end_no_line_feed : ~ In LF (end_ c).
Proof. destruct table_entry as (_ & H & _). now apply no_line_feed_spec. Qed.

Lemma start_not_empty : start c <> [].
Proof.
  destruct table_entry as [H _]. unfold marker_ok in H.
  rewrite !andb_true_iff, !negb_true_iff in H.
  intros E; rewrite E in H. destruct H as [[[_ H] _] _]. discriminate.
Qed.

Lemma end_not_empty : end_ c <> [].
Proof.
  destruct table_entry as (_ & _ & H & _). intros E; rewrite E in H.
  discriminate.
Qed.

Lemma start_not_in_blank : occurs (start c) [] = false.
Proof. apply occurs_nil_false, start_not_empty. Qed.

Lemma start_not_in_identifier : occurs (start c) CEREBRUS_IDENTIFIER = false.
Proof.
  destruct table_entry as [H _]. unfold marker_ok in H.
  rewrite !andb_true_iff, !negb_true_iff in H. tauto.
Qed.

Lemma start_not_in_separator : occurs (start c) (lit "---") = false.
Proof.
  destruct table_entry as [H _]. unfold marker_ok in H.
  rewrite !andb_true_iff, !negb_true_iff in H. tauto.
Qed.

Section Other.
Variables (k' : js_string) (c' : section_config).
Hypothesis Hk' : own_get k' SECTIONS = Some c'.

Lemma table_pair : table_entry_ok (k, c) (k', c') = true.
Proof.
  destruct table_entry as (_ & _ & _ & H). rewrite forallb_forall in H.
  apply H. apply own_get_In; exact Hk'.
Qed.

Lemma start_not_in_end : occurs (start c) (end_ c') = false.
Proof.
  assert (H := table_pair). unfold table_entry_ok in H. simpl in H.
  rewrite andb_true_iff, negb_true_iff in H. tauto.
Qed.

Lemma start_not_in_start : k <> k' -> occurs (start c) (start c') = false.
Proof.
  intros Hne. assert (H := table_pair). unfold table_entry_ok in H.
  simpl in H. apply str_eqb_neq in Hne. rewrite Hne in H. simpl in H.
  rewrite !andb_true_iff, !negb_true_iff in H. tauto.
Qed.

Lemma priority_injective : priority c = priority c' -> k = k'.
Proof.
  intros E. destruct (str_eqb k k') eqn:Ek; [now apply str_eqb_eq|].
  assert (H := table_pair). unfold table_entry_ok in H.
  simpl in H. rewrite Ek in H. simpl in H.
  rewrite !andb_true_iff, !negb_true_iff in H.
  destruct H as (_ & _ & H). apply Z.eqb_neq in H. contradiction.
Qed.
End Other.
End TableFacts.

(** ** parseCommentSections, one key at a time *)

Lemma parseCommentSections_entries (body : js_string) :
  parseCommentSections body = flat_map (parsed_entry body) SECTIONS.
Proof.
  unfold parseCommentSections, parsed_entry, SECTIONS. cbn [fold_left flat_map fst snd start end_].
  destruct (regex_match _ _ body), (regex_match _ _ body), (regex_match _ _ body);
    reflexivity.
Qed.

Lemma own_get_flat_map_parsed (body k : js_string)
    (table : list (js_string * section_config)) :
  NoDup (keys table) ->
  own_get k (flat_map (parsed_entry body) table) =
  match own_get k table with
  | Some c => option_map (fun cap => mkSection (trim cap) (Some c))
                (regex_match (start c) (end_ c) body)
  | None => None
  end.
Proof.
  induction table as [|[k' c'] table IH]; simpl; [reflexivity|].
  intros Hnd; inversion Hnd as [|? ? Hk Hnd']; subst.
  unfold parsed_entry at 1; simpl.
  destruct (str_eqb k k') eqn:E.
  - apply str_eqb_eq in E; subst k'.
    destruct (regex_match (start c') (end_ c') body); simpl.
    + now rewrite str_eqb_refl.
    + rewrite (IH Hnd').
      apply own_get_None in Hk. now rewrite Hk.
  - destruct (regex_match (start c') (end_ c') body); simpl; [rewrite E|]; auto.
Qed.

(** The section under a key is decided by that key's markers alone. *)
Lemma parse_get (body k : js_string) :
  own_get k (parseCommentSections body) =
  match own_get k SECTIONS with
  | Some c => option_map (fun cap => mkSection (trim cap) (Some c))
                (regex_match (start c) (end_ c) body)
  | None => None
  end.
Proof.
  rewrite parseCommentSections_entries.
  apply own_get_flat_map_parsed, SECTIONS_keys_NoDup.
Qed.

Lemma parse_keys_sublist (body : js_string)
    (table : list (js_string * section_config)) :
  NoDup (keys table) -> NoDup (keys (flat_map (parsed_entry body) table)) /\
  forall k, In k (keys (flat_map (parsed_entry body) table)) -> In k (keys table).
Proof.
  induction table as [|[k' c'] table IH]; simpl; [split; [constructor | tauto]|].
  intros Hnd; inversion Hnd as [|? ? Hk Hnd']; subst.
  destruct (IH Hnd') as [IH1 IH2].
  unfold parsed_entry at 1 3; simpl.
  destruct (regex_match (start c') (end_ c') body); simpl.
  - split; [constructor; auto | intros k [->|H]; auto].
  - split; auto.
Qed.

Lemma parse_entry_ok (body : js_string) :
  Forall entry_ok (parseCommentSections body).
Proof.
  apply Forall_forall. intros [k s] Hin.
  assert (Hnd : NoDup (keys (parseCommentSections body))).
  { rewrite parseCommentSections_entries.
    apply parse_keys_sublist, SECTIONS_keys_NoDup. }
  apply In_own_get in Hin; [|exact Hnd]. rewrite parse_get in Hin.
  destruct (own_get k SECTIONS) as [c|] eqn:E; [|discriminate].
  destruct (regex_match (start c) (end_ c) body); [|discriminate].
  injection Hin as <-. exists c; auto.
Qed.

Lemma parse_sections_ok (body : js_string) :
  sections_ok (parseCommentSections body).
Proof.
  split; [|apply parse_entry_ok].
  rewrite parseCommentSections_entries.
  apply parse_keys_sublist, SECTIONS_keys_NoDup.
Qed.

(** ** buildComment renders the specified format *)

Lemma forEach_lines (len : nat) (l : list (js_string * section)) :
  forall (i : nat) (parts : list js_string),
    len = (i + length l)%nat ->
    fold_left (push_section len) (combine l (seq i (length l))) parts =
    parts ++ document_lines (map snd l).
Proof.
  induction l as [|[k s] l IH]; intros i parts Hlen; simpl.
  - now rewrite app_nil_r.
  - rewrite IH by (simpl in Hlen; lia).
    rewrite <- !app_assoc. f_equal. simpl. do 6 f_equal.
    destruct l as [|e l]; simpl in *.
    + replace (Z.of_nat i <? Z.of_nat len - 1)%Z with false
        by (symmetry; apply Z.ltb_ge; lia).
      reflexivity.
    + replace (Z.of_nat i <? Z.of_nat len - 1)%Z with true
        by (symmetry; apply Z.ltb_lt; lia).
      reflexivity.
Qed.

Lemma buildParts_lines (sections : sections_object) :
  buildParts sections =
  CEREBRUS_IDENTIFIER :: document_lines (map snd (sortedSections sections)).
Proof. unfold buildParts. now rewrite forEach_lines by reflexivity. Qed.

Lemma buildComment_format (sections : sections_object) :
  buildComment sections = document_format (map snd (sortedSections sections)).
Proof. unfold buildComment. now rewrite buildParts_lines. Qed.

(** The lines around one section of the document. *)
Lemma document_lines_split (l1 : list section) (s : section) (l2 : list section) :
  document_lines (l1 ++ s :: l2) =
  flat_map (fun s' => section_lines s' ++ separator_lines) l1 ++
  section_lines s ++
  match l2 with
  | [] => []
  | _ :: _ => separator_lines ++ document_lines l2
  end.
Proof.
  induction l1 as [|s1 l1 IH]; [reflexivity|].
  change ((s1 :: l1) ++ s :: l2) with (s1 :: (l1 ++ s :: l2)).
  cbn [document_lines flat_map]. rewrite IH.
  destruct (l1 ++ s :: l2) eqn:E; [destruct l1; discriminate|].
  rewrite <- !app_assoc. reflexivity.
Qed.

(** ** Sorting the sections of the table *)

Lemma compare_priority_prio (a b : js_string * section) :
  entry_ok a -> entry_ok b -> compare_priority a b = (prio a - prio b)%Z.
Proof.
  intros (ca & _ & Ha) (cb & _ & Hb). unfold compare_priority, prio.
  now rewrite Ha, Hb.
Qed.

Lemma prio_NoDup (sections : sections_object) :
  sections_ok sections -> NoDup (map prio sections).
Proof.
  intros [Hnd Hok]. induction sections as [|[k s] l IH]; [constructor|].
  simpl in *. inversion Hnd as [|? ? Hk Hnd']; subst.
  inversion Hok as [|? ? (c & Hc & Hs) Hok']; subst.
  constructor; [|auto].
  intros Hin. apply in_map_iff in Hin as ([k' s'] & Hp & Hin).
  rewrite Forall_forall in Hok'. destruct (Hok' _ Hin) as (c' & Hc' & Hs').
  simpl in *. unfold prio in Hp. simpl in Hp. rewrite Hs, Hs' in Hp.
  assert (k' = k) by (eapply priority_injective; eauto).
  subst k'. apply Hk. change k with (fst (k, s')). now apply in_map.
Qed.

Lemma sortedSections_perm (sections : sections_object) :
  Permutation (sortedSections sections) sections.
Proof. apply array_sort_perm. Qed.

Lemma sortedSections_sorted (sections : sections_object) :
  sections_ok sections ->
  StronglySorted (key_lt prio) (sortedSections sections).
Proof.
  intros Hok. unfold sortedSections.
  apply sorted_strict.
  - eapply Permutation_NoDup; [|apply prio_NoDup; exact Hok].
    apply Permutation_map, Permutation_sym, array_sort_perm.
  - apply array_sort_sorted with (P := entry_ok).
    + apply compare_priority_prio.
    + apply Hok.
Qed.

Lemma sortedSections_ok (sections : sections_object) :
  sections_ok sections -> sections_ok (sortedSections sections).
Proof.
  intros [Hnd Hok]. split.
  - eapply Permutation_NoDup; [|exact Hnd].
    apply Permutation_map, Permutation_sym, sortedSections_perm.
  - eapply Permutation_Forall; [|exact Hok].
    apply Permutation_sym, sortedSections_perm.
Qed.

(** The rendered document depends on the properties of the section object,
    not on the order in which they were written. *)
Lemma buildComment_same_properties (s1 s2 : sections_object) :
  sections_ok s1 -> sections_ok s2 ->
  (forall k, own_get k s1 = own_get k s2) ->
  buildComment s1 = buildComment s2.
Proof.
  intros H1 H2 Hget. rewrite !buildComment_format. do 2 f_equal.
  unfold sortedSections.
  apply array_sort_order_irrelevant with (f := prio) (P := entry_ok).
  - apply compare_priority_prio.
  - apply H1.
  - apply prio_NoDup; exact H1.
  - apply same_properties_Permutation; [apply H1 | apply H2 | exact Hget].
Qed.

(** ** Parsing a rendered document *)

Lemma marker_free_spec (x k : js_string) (c : section_config) :
  marker_free x = true -> own_get k SECTIONS = Some c ->
  occurs (start c) x = false /\ occurs (end_ c) x = false.
Proof.
  intros H Hk. unfold marker_free in H. rewrite forallb_forall in H.
  specialize (H _ (own_get_In _ _ _ Hk)). simpl in H.
  rewrite andb_true_iff, !negb_true_iff in H. exact H.
Qed.

Lemma chunks_free_app (p : js_string) (l1 l2 : list js_string) :
  chunks_free p l1 -> chunks_free p l2 -> chunks_free p (l1 ++ l2).
Proof. intros; apply Forall_app; split; assumption. Qed.

Lemma chunks_free_flat_map (p : js_string) (l : list section) :
  Forall (fun s => chunks_free p (section_lines s)) l ->
  chunks_free p separator_lines ->
  chunks_free p (flat_map (fun s => section_lines s ++ separator_lines) l).
Proof.
  intros Hl Hsep. induction Hl as [|s l Hs _ IH]; [constructor|].
  cbn [flat_map]. auto using chunks_free_app.
Qed.

Lemma chunks_free_document_lines (p : js_string) (l : list section) :
  Forall (fun s => chunks_free p (section_lines s)) l ->
  chunks_free p separator_lines ->
  chunks_free p (document_lines l).
Proof.
  intros Hl Hsep. induction Hl as [|s l Hs _ IH]; [constructor|].
  cbn [document_lines]. apply chunks_free_app; [assumption|].
  destruct l; [constructor | auto using chunks_free_app].
Qed.

Section ParseRendered.
Variables (k : js_string) (c : section_config).
Hypothesis Hk : own_get k SECTIONS = Some c.

Lemma separator_free : chunks_free (start c) separator_lines.
Proof.
  repeat constructor;
    [eapply start_not_in_blank | eapply start_not_in_separator]; eauto.
Qed.

(** The lines of the other sections hold no start marker of [k]. *)
Lemma other_sections_free (l : list (js_string * section)) :
  Forall entry_ok l -> contents_marker_free l -> ~ In k (keys l) ->
  Forall (fun s => chunks_free (start c) (section_lines s)) (map snd l).
Proof.
  intros Hok Hfree Hnin. induction l as [|[k' s] l IH]; [constructor|].
  inversion Hok as [|? ? (c' & Hc' & Hs) Hok']; subst.
  inversion Hfree as [|? ? Hcontent Hfree']; subst.
  unfold keys in *. cbn [map fst snd In] in *.
  constructor; [|apply IH; tauto].
  assert (Hne : k <> k') by (intros ->; tauto).
  destruct (marker_free_spec _ _ _ Hcontent Hk) as [Hst _].
  unfold section_lines, field, blank_line. rewrite Hs.
  repeat constructor;
    eauto using start_not_in_blank, start_not_in_start, start_not_in_end.
Qed.

(** A section that the document holds is read back with its content
    trimmed. *)
Lemma regex_match_rendered_present
    (l1 l2 : list (js_string * section)) (s : section) :
  sections_ok (l1 ++ (k, s) :: l2) ->
  contents_marker_free (l1 ++ (k, s) :: l2) ->
  regex_match (start c) (end_ c)
    (document_format (map snd (l1 ++ (k, s) :: l2))) =
  Some (LF :: LF :: content s ++ [LF; LF]).
Proof.
  intros [Hnd Hok] Hfree.
  apply Forall_app in Hok as [Hok1 Hok2].
  inversion Hok2 as [|? ? (c' & Hc' & Hs) Hok2']; subst.
  cbn [fst snd] in Hc', Hs.
  assert (c' = c) by congruence; subst c'.
  apply Forall_app in Hfree as [Hfree1 Hfree2].
  inversion Hfree2 as [|? ? Hcontent _]; subst. cbn [snd] in Hcontent.
  destruct (marker_free_spec _ _ _ Hcontent Hk) as [_ Hen].
  assert (Hnin1 : ~ In k (keys l1)).
  { unfold keys in Hnd. rewrite map_app in Hnd. cbn [map fst] in Hnd.
    apply NoDup_remove_2 in Hnd. intros H; apply Hnd, in_or_app; auto. }
  unfold document_format. rewrite map_app. simpl map.
  rewrite document_lines_split.
  unfold section_lines at 2, field. rewrite Hs.
  set (tail := match map snd l2 with [] => [] | _ :: _ => _ end).
  set (before := flat_map _ (map snd l1)).
  change (CEREBRUS_IDENTIFIER ::
            before ++ [blank_line; start c; blank_line; content s; blank_line;
                       end_ c] ++ tail)
    with ((CEREBRUS_IDENTIFIER :: before) ++
            [blank_line] ++
            start c :: [blank_line; content s; blank_line] ++ end_ c :: tail).
  rewrite app_assoc.
  rewrite regex_match_chunks.
  - unfold lines_text, blank_line; simpl. rewrite <- app_assoc. reflexivity.
  - eapply start_no_line_feed; eauto.
  - eapply end_no_line_feed; eauto.
  - eapply end_not_empty; eauto.
  - apply chunks_free_app; [constructor|].
    + eapply start_not_in_identifier; eauto.
    + apply chunks_free_flat_map; [|apply separator_free].
      apply other_sections_free; assumption.
    + repeat constructor. eapply start_not_in_blank; eauto.
  - assert (Hb : occurs (end_ c) [] = false)
      by (apply occurs_nil_false; eapply end_not_empty; eauto).
    repeat constructor; assumption.
Qed.

(** A section that the document does not hold is not read back. *)
Lemma regex_match_rendered_absent (l : list (js_string * section)) :
  Forall entry_ok l -> contents_marker_free l -> ~ In k (keys l) ->
  regex_match (start c) (end_ c) (document_format (map snd l)) = None.
Proof.
  intros Hok Hfree Hnin. unfold document_format.
  apply regex_match_no_chunk.
  - eapply start_not_empty; eauto.
  - eapply start_no_line_feed; eauto.
  - constructor; [eapply start_not_in_identifier; eauto|].
    apply chunks_free_document_lines; [|apply separator_free].
    apply other_sections_free; assumption.
Qed.
End ParseRendered.

Lemma trim_rendered (x : js_string) :
  trim (LF :: LF :: x ++ [LF; LF]) = trim x.
Proof. apply (trim_pad [LF; LF] x [LF; LF]); reflexivity. Qed.

Lemma entry_ok_registered (sections : sections_object) (k : js_string) (s : section) :
  Forall entry_ok sections -> own_get k sections = Some s ->
  exists c, own_get k SECTIONS = Some c /\ config s = Some c.
Proof.
  intros Hok Hget. apply own_get_In in Hget.
  rewrite Forall_forall in Hok. exact (Hok _ Hget).
Qed.

(** Parsing what [buildComment] rendered gives back every section, with its
    content trimmed, and nothing else. *)
Lemma parse_build_get (sections : sections_object) (k : js_string) :
  sections_ok sections -> contents_marker_free sections ->
  own_get k (parseCommentSections (buildComment sections)) =
  option_map trim_content (own_get k sections).
Proof.
  intros Hok Hfree.
  assert (Hsok := sortedSections_ok _ Hok).
  assert (Hsfree : contents_marker_free (sortedSections sections)).
  { eapply Permutation_Forall; [|exact Hfree].
    apply Permutation_sym, sortedSections_perm. }
  rewrite (Permutation_own_get sections (sortedSections sections) k)
    by (try apply Hok; apply Permutation_sym, sortedSections_perm).
  rewrite parse_get, buildComment_format.
  destruct (own_get k (sortedSections sections)) as [s|] eqn:Es.
  - destruct (entry_ok_registered _ _ _ (proj2 Hsok) Es) as (c & Hc & Hs).
    rewrite Hc.
    destruct (in_split _ _ (own_get_In _ _ _ Es)) as (l1 & l2 & El).
    rewrite El in *.
    rewrite (regex_match_rendered_present k c Hc l1 l2 s) by assumption.
    simpl. rewrite trim_rendered. unfold trim_content. now rewrite Hs.
  - destruct (own_get k SECTIONS) as [c|] eqn:Hc; [|reflexivity].
    rewrite (regex_match_rendered_absent k c Hc); [reflexivity | apply Hsok | assumption |].
    apply own_get_None; exact Es.
Qed.

Lemma trim_content_trimmed (s : section) :
  trimmed (content s) -> trim_content s = s.
Proof. unfold trimmed, trim_content. intros ->. now destruct s. Qed.

Lemma sample_sections_valid : valid_section_set sample_sections.
Proof.
  split; [split|].
  - repeat constructor; simpl; intros H;
      repeat (destruct H as [H|H]; [discriminate H|]); exact H.
  - repeat constructor; eexists; split; reflexivity.
  - repeat constructor; vm_compute; reflexivity.
Qed.

(** C1. Round trip: for a valid section set (sections of the table, each
    content trimmed and free of every start and end marker), parsing the
    document that [buildComment] renders gives back exactly that set: the
    same section under every key, hence the same entries up to order. *)
Theorem parse_build_roundtrip (sections : sections_object) :
  valid_section_set sections ->
  (forall k, own_get k (parseCommentSections (buildComment sections)) =
             own_get k sections) /\
  Permutation (parseCommentSections (buildComment sections)) sections.
Proof.
  intros [Hok Hvalid].
  assert (Hfree : contents_marker_free sections)
    by (eapply Forall_impl; [|exact Hvalid]; simpl; tauto).
  assert (Hget : forall k, own_get k (parseCommentSections (buildComment sections)) =
                           own_get k sections).
  { intros k. rewrite parse_build_get by assumption.
    destruct (own_get k sections) as [s|] eqn:E; [|reflexivity].
    simpl. f_equal. apply trim_content_trimmed.
    rewrite Forall_forall in Hvalid.
    exact (proj1 (Hvalid _ (own_get_In _ _ _ E))). }
  split; [exact Hget|].
  apply same_properties_Permutation; [apply parse_sections_ok | apply Hok | exact Hget].
Qed.

Lemma parse_build_roundtrip_witness :
  valid_section_set sample_sections /\
  (forall k, own_get k (parseCommentSections (buildComment sample_sections)) =
             own_get k sample_sections) /\
  Permutation (parseCommentSections (buildComment sample_sections))
    sample_sections.
Proof.
  split; [exact sample_sections_valid|].
  exact (parse_build_roundtrip sample_sections sample_sections_valid).
Defined.

(** ** Keys of the table *)

Lemma registered_get (k : js_string) (c : section_config) :
  own_get k SECTIONS = Some c -> SECTIONS_get k = Descriptor c.
Proof. unfold SECTIONS_get. now intros ->. Qed.

Lemma registered_not_proto (k : js_string) (c : section_config) :
  own_get k SECTIONS = Some c -> str_eqb k (lit "__proto__") = false.
Proof.
  intros H. destruct (str_eqb k (lit "__proto__")) eqn:E; [|reflexivity].
  apply str_eqb_eq in E; subst k. vm_compute in H. discriminate.
Qed.

Lemma updateCommentSection_registered
    (body k content : js_string) (c : section_config) :
  own_get k SECTIONS = Some c ->
  updateCommentSection body k content =
  Return (buildComment
            (own_put k (mkSection content (Some c)) (parseCommentSections body))).
Proof.
  intros Hk. unfold updateCommentSection, assign.
  now rewrite (registered_get _ _ Hk), (registered_not_proto _ _ Hk).
Qed.

Lemma removeCommentSection_registered (body k : js_string) (c : section_config) :
  own_get k SECTIONS = Some c ->
  removeCommentSection body k =
  Return (serialize (own_delete k (parseCommentSections body))).
Proof.
  intros Hk. unfold removeCommentSection.
  rewrite (registered_get _ _ Hk). cbn [truthy negb].
  destruct (own_delete k (parseCommentSections body)); reflexivity.
Qed.

Lemma createCommentWithSection_registered
    (k content : js_string) (c : section_config) :
  own_get k SECTIONS = Some c ->
  createCommentWithSection k content =
  Return (buildComment [ (k, mkSection content (Some c)) ]).
Proof.
  intros Hk. unfold createCommentWithSection.
  now rewrite (registered_get _ _ Hk).
Qed.

Lemma put_sections_ok (sections : sections_object)
    (k content : js_string) (c : section_config) :
  own_get k SECTIONS = Some c -> sections_ok sections ->
  sections_ok (own_put k (mkSection content (Some c)) sections).
Proof.
  intros Hk [Hnd Hok]. split.
  - apply NoDup_keys_put; assumption.
  - apply Forall_put; [exists c; auto | assumption].
Qed.



(** The content of the section that is written goes into the document as
    the caller passed it; only what the parser reads back is trimmed. *)
Example content_rendered_as_passed :
  updateCommentSection [] BUILD_SIZE [LF; 120; LF] =
  Return (CEREBRUS_IDENTIFIER ++ [LF; LF] ++
          lit "<!-- Build Size Section -->" ++ [LF; LF] ++
          [LF; 120; LF] ++ [LF; LF] ++
          lit "<!-- End Build Size Section -->").
Proof. vm_compute. reflexivity. Qed.

(** ** trim is idempotent *)

Lemma trim_start_head (s r : js_string) (c : code_unit) :
  trim_start s = c :: r -> is_white_space c = false.
Proof.
  induction s as [|x s IH]; simpl; [discriminate|].
  destruct (is_white_space x) eqn:E; [exact IH|].
  intros [= <- _]; exact E.
Qed.

Lemma trim_start_suffix (s : js_string) : exists a, s = a ++ trim_start s.
Proof.
  induction s as [|x s [a IH]]; simpl; [exists []; reflexivity|].
  destruct (is_white_space x).
  - exists (x :: a). simpl. now rewrite <- IH.
  - exists []; reflexivity.
Qed.

Lemma trim_end_prefix (t : js_string) : exists b, t = trim_end t ++ b.
Proof.
  unfold trim_end. destruct (trim_start_suffix (rev t)) as [a Ha].
  exists (rev a). rewrite <- rev_app_distr, <- Ha. now rewrite rev_involutive.
Qed.

Lemma trim_idem (s : js_string) : trim (trim s) = trim s.
Proof.
  unfold trim.
  set (t := trim_start s). set (u := trim_end t).
  assert (Hu : trim_start u = u).
  { destruct u as [|c u'] eqn:Eu; [reflexivity|].
    destruct (trim_end_prefix t) as [b Hb]. fold u in Hb. rewrite Eu in Hb.
    simpl in Hb. unfold t in Hb. apply trim_start_head in Hb.
    simpl. now rewrite Hb. }
  rewrite Hu. unfold u, trim_end.
  now rewrite rev_involutive, trim_start_idem.
Qed.

Lemma parse_contents_trimmed (body k : js_string) (s : section) :
  own_get k (parseCommentSections body) = Some s -> trimmed (content s).
Proof.
  rewrite parse_get. destruct (own_get k SECTIONS) as [c|]; [|discriminate].
  destruct (regex_match (start c) (end_ c) body); [|discriminate].
  intros [= <-]. apply trim_idem.
Qed.

(** ** Writing a section twice *)

(** C3, as stated, fails: a content that quotes the markers of another
    section is read back as that section by the second call. *)
Lemma upsert_not_idempotent :
  update_again (updateCommentSection [] CHANGE_NOTE quoted_markers)
    CHANGE_NOTE quoted_markers
  <> updateCommentSection [] CHANGE_NOTE quoted_markers.
Proof. vm_compute. discriminate. Qed.

(** The same happens with a plain content when the sections found in the
    body quote each other's markers. *)
Example upsert_not_idempotent_body :
  update_again (updateCommentSection overlapping_body CHANGE_NOTE (lit "ok"))
    CHANGE_NOTE (lit "ok")
  <> updateCommentSection overlapping_body CHANGE_NOTE (lit "ok").
Proof. vm_compute. discriminate. Qed.

(** C3, amended. Upsert is idempotent when no start or end marker of the
    table occurs in the new content or in the content of a section parsed
    from the body: then a second call with the same key and content returns
    the body of the first, byte for byte. *)
Theorem upsert_idempotent (body A c1 : js_string) (c : section_config) :
  own_get A SECTIONS = Some c ->
  marker_free c1 = true ->
  contents_marker_free (parseCommentSections body) ->
  update_again (updateCommentSection body A c1) A c1 =
  updateCommentSection body A c1.
Proof.
  intros HA Hc1 Hbody.
  rewrite (updateCommentSection_registered body _ _ _ HA). cbn [update_again].
  rewrite (updateCommentSection_registered _ _ _ _ HA).
  set (sections := own_put A (mkSection c1 (Some c)) (parseCommentSections body)).
  assert (Hok : sections_ok sections)
    by (apply put_sections_ok; [assumption | apply parse_sections_ok]).
  assert (Hfree : contents_marker_free sections)
    by (apply Forall_put; assumption).
  f_equal. apply buildComment_same_properties.
  - apply put_sections_ok; [assumption | apply parse_sections_ok].
  - exact Hok.
  - intros k. destruct (str_eqb A k) eqn:E.
    + apply str_eqb_eq in E; subst k. unfold sections.
      now rewrite !own_get_put_same.
    + apply str_eqb_neq in E.
      rewrite own_get_put_other by assumption.
      rewrite parse_build_get by assumption.
      unfold sections. rewrite own_get_put_other by assumption.
      destruct (own_get k (parseCommentSections body)) as [s|] eqn:Es;
        [|reflexivity].
      simpl. f_equal. apply trim_content_trimmed.
      eapply parse_contents_trimmed; eauto.
Qed.

Lemma upsert_idempotent_witness :
  marker_free (lit "All good") = true /\
  contents_marker_free (parseCommentSections (buildComment sample_sections)) /\
  update_again
    (updateCommentSection (buildComment sample_sections) CHANGE_NOTE
       (lit "All good"))
    CHANGE_NOTE (lit "All good") =
  updateCommentSection (buildComment sample_sections) CHANGE_NOTE
    (lit "All good").
Proof.
  assert (H1 : marker_free (lit "All good") = true) by (vm_compute; reflexivity).
  assert (H2 : contents_marker_free
                 (parseCommentSections (buildComment sample_sections)))
    by (repeat constructor).
  split; [exact H1 | split; [exact H2 |]].
  apply (upsert_idempotent (buildComment sample_sections) CHANGE_NOTE
           (lit "All good") (mkConfig 3 (lit "<!-- Change Note Section -->")
                                        (lit "<!-- End Change Note Section -->")));
    [reflexivity | exact H1 | exact H2].
Defined.

(** ** The order of the rendered sections *)

Lemma lines_text_join (pre : list js_string) :
  pre <> [] -> lines_text pre = join [LF] pre ++ [LF].
Proof.
  induction pre as [|c pre IH]; [congruence|]. intros _.
  destruct pre as [|c' pre].
  - unfold lines_text; simpl. now rewrite app_nil_r.
  - rewrite join_cons by discriminate.
    change (lines_text (c :: c' :: pre)) with ((c ++ [LF]) ++ lines_text (c' :: pre)).
    rewrite IH by discriminate. rewrite <- !app_assoc. reflexivity.
Qed.

(** [part_offset] points at the part. *)
Lemma part_offset_spec (parts : list js_string) (n : nat) (p : js_string) :
  (0 < n)%nat -> nth_error parts n = Some p ->
  starts_with p (skipn (part_offset parts n) (join [LF] parts)) = true.
Proof.
  intros Hn Hp.
  destruct (nth_error_split _ _ Hp) as (pre & post & -> & Hlen).
  assert (Hpre : pre <> []) by (intros ->; simpl in Hlen; lia).
  unfold part_offset.
  rewrite firstn_app, <- Hlen, Nat.sub_diag, firstn_all, firstn_O, app_nil_r.
  rewrite join_app by discriminate.
  rewrite lines_text_join by assumption.
  replace (length (join [LF] pre) + 1)%nat
    with (length (join [LF] pre ++ [LF]))
    by (rewrite length_app; reflexivity).
  rewrite skipn_length_app.
  destruct (join_starts p post) as [r ->]. apply starts_with_app.
Qed.

Lemma part_offset_lt (parts : list js_string) (i j : nat) :
  (0 < i)%nat -> (i < j)%nat -> (j <= length parts)%nat ->
  (part_offset parts i < part_offset parts j)%nat.
Proof.
  intros Hi Hij Hj. unfold part_offset.
  rewrite <- (firstn_skipn i (firstn j parts)).
  rewrite firstn_firstn, Nat.min_l by lia.
  assert (H1 : firstn i parts <> [])
    by (intros E; apply (f_equal (@length _)) in E;
        rewrite length_firstn in E; simpl in E; lia).
  assert (H2 : skipn i (firstn j parts) <> [])
    by (intros E; apply (f_equal (@length _)) in E;
        rewrite length_skipn, length_firstn in E; simpl in E; lia).
  rewrite join_app, lines_text_join by assumption.
  rewrite !length_app. simpl. lia.
Qed.

Lemma key_index_nth {V : Type} (k : js_string) (o : object V) (n : nat) :
  key_index k (keys o) = Some n -> exists v, nth_error o n = Some (k, v).
Proof.
  revert n; induction o as [|[k' v'] o IH]; intros n; simpl; [discriminate|].
  destruct (str_eqb k k') eqn:E.
  - apply str_eqb_eq in E; subst. intros [= <-]. exists v'; reflexivity.
  - destruct (key_index k (keys o)) as [m|]; [|discriminate].
    intros [= <-]. exact (IH m eq_refl).
Qed.

Lemma key_index_present {V : Type} (k : js_string) (o : object V) (v : V) :
  own_get k o = Some v -> exists n, key_index k (keys o) = Some n.
Proof.
  induction o as [|[k' v'] o IH]; simpl; [discriminate|].
  destruct (str_eqb k k'); [eexists; reflexivity|].
  intros H. destruct (IH H) as [n ->]. eexists; reflexivity.
Qed.

Lemma sorted_nth_lt {A : Type} (R : A -> A -> Prop) (l : list A) :
  StronglySorted R l ->
  forall i j a b, (i < j)%nat ->
    nth_error l i = Some a -> nth_error l j = Some b -> R a b.
Proof.
  induction 1 as [|x l Hs IH Hx]; intros i j a b Hij Ha Hb.
  - destruct i; discriminate.
  - destruct j as [|j]; [lia|]. simpl in Hb.
    destruct i as [|i]; simpl in Ha.
    + injection Ha as <-. rewrite Forall_forall in Hx.
      apply Hx. eapply nth_error_In; eauto.
    + apply (IH i j); auto; lia.
Qed.

(** In the sorted entries the lower priority has the lower index. *)
Lemma sorted_index_order (l : list (js_string * section)) (i j : nat)
    (a b : js_string * section) :
  StronglySorted (key_lt prio) l ->
  nth_error l i = Some a -> nth_error l j = Some b ->
  (prio a < prio b)%Z -> (i < j)%nat.
Proof.
  intros Hs Ha Hb Hlt.
  destruct (Nat.lt_trichotomy i j) as [H|[H|H]]; [exact H | |].
  - subst j. rewrite Ha in Hb. injection Hb as <-. lia.
  - assert (Hba := sorted_nth_lt _ _ Hs j i b a H Hb Ha).
    unfold key_lt in Hba. lia.
Qed.

(** The start marker of the [n]-th section is line [1 + 8 n] of the
    section lines. *)
Lemma document_lines_start (l : list section) (n : nat) (s : section) :
  nth_error l n = Some s ->
  nth_error (document_lines l) (1 + 8 * n) = Some (field start s).
Proof.
  revert n; induction l as [|s0 l IH]; intros n Hn; [destruct n; discriminate|].
  destruct n as [|n]; simpl in Hn.
  - injection Hn as <-. reflexivity.
  - destruct l as [|s1 l]; [destruct n; discriminate|].
    replace (1 + 8 * S n)%nat with (8 + (1 + 8 * n))%nat by lia.
    exact (IH n Hn).
Qed.

(** A section of the object has its start marker at its offset. *)
Lemma start_marker_offset_spec (sections : sections_object)
    (k : js_string) (s : section) (c : section_config) :
  sections_ok sections -> own_get k sections = Some s -> config s = Some c ->
  exists n,
    nth_error (sortedSections sections) n = Some (k, s) /\
    nth_error (buildParts sections) (2 + 8 * n) = Some (start c) /\
    start_marker_offset sections k =
      Some (part_offset (buildParts sections) (2 + 8 * n)) /\
    starts_with (start c)
      (skipn (part_offset (buildParts sections) (2 + 8 * n))
             (buildComment sections)) = true.
Proof.
  intros Hok Hget Hs.
  assert (Hsok := sortedSections_ok _ Hok).
  assert (Hsget : own_get k (sortedSections sections) = Some s).
  { rewrite <- Hget. symmetry. apply Permutation_own_get; [apply Hok|].
    apply Permutation_sym, sortedSections_perm. }
  destruct (key_index_present _ _ _ Hsget) as [n Hn].
  destruct (key_index_nth _ _ _ Hn) as [v Hv].
  assert (v = s).
  { apply nth_error_In in Hv. apply In_own_get in Hv; [|apply Hsok]. congruence. }
  subst v. exists n.
  assert (Hpart : nth_error (buildParts sections) (2 + 8 * n) = Some (start c)).
  { rewrite buildParts_lines.
    change (2 + 8 * n)%nat with (S (1 + 8 * n)). cbn [nth_error].
    rewrite (document_lines_start _ n s).
    - unfold field. now rewrite Hs.
    - rewrite nth_error_map, Hv. reflexivity. }
  repeat split; auto.
  - unfold start_marker_offset. now rewrite Hn.
  - apply part_offset_spec; [lia | exact Hpart].
Qed.

(** A section that was rendered is found again by the parser, whatever the
    contents are. *)
Lemma parse_build_present (sections : sections_object)
    (k : js_string) (s : section) :
  sections_ok sections -> own_get k sections = Some s ->
  exists s', own_get k (parseCommentSections (buildComment sections)) = Some s'.
Proof.
  intros Hok Hget.
  assert (Hsok := sortedSections_ok _ Hok).
  assert (Hsget : own_get k (sortedSections sections) = Some s).
  { rewrite <- Hget. symmetry. apply Permutation_own_get; [apply Hok|].
    apply Permutation_sym, sortedSections_perm. }
  destruct (entry_ok_registered _ _ _ (proj2 Hsok) Hsget) as (c & Hc & Hs).
  rewrite parse_get, Hc.
  assert (Hfound : regex_match (start c) (end_ c) (buildComment sections) <> None).
  { apply regex_match_found. rewrite buildComment_format.
    destruct (in_split _ _ (own_get_In _ _ _ Hsget)) as (l1 & l2 & ->).
    unfold document_format. rewrite map_app. simpl map.
    rewrite document_lines_split.
    unfold section_lines at 2, field. rewrite Hs.
    set (tail := match map snd l2 with [] => [] | _ :: _ => _ end).
    set (before := flat_map _ (map snd l1)).
    change (CEREBRUS_IDENTIFIER ::
              before ++ [blank_line; start c; blank_line; content s; blank_line;
                         end_ c] ++ tail)
      with ((CEREBRUS_IDENTIFIER :: before) ++
              [blank_line] ++
              start c :: [blank_line; content s; blank_line] ++ end_ c :: tail).
    rewrite app_assoc.
    rewrite join_app by discriminate.
    rewrite join_cons by discriminate.
    rewrite join_app by discriminate.
    destruct (join_starts (end_ c) tail) as [r ->].
    exists (lines_text ((CEREBRUS_IDENTIFIER :: before) ++ [blank_line])),
      (LF :: lines_text [blank_line; content s; blank_line]), r.
    reflexivity. }
  destruct (regex_match (start c) (end_ c) (buildComment sections));
    [eexists; reflexivity | contradiction].
Qed.

(** *** Offsets and first occurrences *)

Lemma indexOf_skip_chunk (p c rest : js_string) :
  ~ In LF p -> occurs p c = false ->
  indexOf p (c ++ LF :: rest) =
  option_map (Nat.add (length c + 1)) (indexOf p rest).
Proof.
  intros Hnl. induction c as [|a c IH]; intros Hc.
  - assert (E := starts_with_chunk_false p [] rest Hnl Hc). simpl app in *.
    simpl. rewrite E. destruct (indexOf p rest); reflexivity.
  - assert (E := starts_with_chunk_false p (a :: c) rest Hnl Hc).
    apply occurs_false_cons in Hc as [_ Hc]. simpl app in *.
    simpl. rewrite E, (IH Hc). destruct (indexOf p rest); reflexivity.
Qed.

Lemma indexOf_chunks (p : js_string) (pre post : list js_string) :
  ~ In LF p -> chunks_free p pre ->
  indexOf p (join [LF] (pre ++ p :: post)) = Some (length (lines_text pre)).
Proof.
  intros Hnl Hpre. induction Hpre as [|c pre Hc _ IH].
  - simpl app. destruct (join_starts p post) as [r ->].
    destruct (p ++ r) eqn:E; simpl; rewrite <- E, starts_with_app; reflexivity.
  - simpl app. rewrite join_cons by (destruct pre; discriminate).
    rewrite indexOf_skip_chunk by assumption. rewrite IH.
    cbn [option_map]. f_equal.
    change (lines_text (c :: pre)) with ((c ++ [LF]) ++ lines_text pre).
    rewrite !length_app. reflexivity.
Qed.

Lemma key_index_app {V : Type} (k : js_string) (v : V) (l1 l2 : object V) :
  ~ In k (keys l1) -> key_index k (keys (l1 ++ (k, v) :: l2)) = Some (length l1).
Proof.
  unfold keys. induction l1 as [|[k' v'] l1 IH]; cbn [app map fst In key_index length];
    intros Hnin.
  - now rewrite str_eqb_refl.
  - assert (E : str_eqb k k' = false) by (apply str_eqb_neq; intuition).
    rewrite E, IH by tauto. reflexivity.
Qed.

Lemma length_section_lines (l : list section) :
  length (flat_map (fun s => section_lines s ++ separator_lines) l) =
  (8 * length l)%nat.
Proof. induction l as [|s l IH]; simpl in *; lia. Qed.

(** When no content holds a marker, the offset of a rendered start marker
    is the first occurrence of the marker text in the body. *)
Lemma start_marker_offset_first (sections : sections_object)
    (k : js_string) (s : section) (c : section_config) :
  sections_ok sections -> contents_marker_free sections ->
  own_get k sections = Some s -> own_get k SECTIONS = Some c ->
  start_marker_offset sections k = indexOf (start c) (buildComment sections).
Proof.
  intros Hok Hfree Hget Hc.
  assert (Hsok := sortedSections_ok _ Hok).
  assert (Hsfree : contents_marker_free (sortedSections sections)).
  { eapply Permutation_Forall; [|exact Hfree].
    apply Permutation_sym, sortedSections_perm. }
  assert (Hsget : own_get k (sortedSections sections) = Some s).
  { rewrite <- Hget. symmetry. apply Permutation_own_get; [apply Hok|].
    apply Permutation_sym, sortedSections_perm. }
  destruct (entry_ok_registered _ _ _ (proj2 Hsok) Hsget) as (c' & Hc' & Hs).
  assert (c' = c) by congruence; subst c'.
  unfold start_marker_offset, buildComment. rewrite buildParts_lines.
  destruct (in_split _ _ (own_get_In _ _ _ Hsget)) as (l1 & l2 & El).
  rewrite El in *. destruct Hsok as [Hnd Hsok].
  apply Forall_app in Hsok as [Hok1 _].
  apply Forall_app in Hsfree as [Hfree1 _].
  assert (Hnin1 : ~ In k (keys l1)).
  { unfold keys in Hnd. rewrite map_app in Hnd. cbn [map fst] in Hnd.
    apply NoDup_remove_2 in Hnd. intros H; apply Hnd, in_or_app; auto. }
  rewrite key_index_app by assumption.
  rewrite map_app. simpl map. rewrite document_lines_split.
  unfold section_lines at 2 4, field. rewrite Hs.
  set (tail := match map snd l2 with [] => [] | _ :: _ => _ end).
  set (before := flat_map _ (map snd l1)).
  change (CEREBRUS_IDENTIFIER ::
            before ++ [blank_line; start c; blank_line; content s; blank_line;
                       end_ c] ++ tail)
    with ((CEREBRUS_IDENTIFIER :: before) ++
            [blank_line] ++
            start c :: [blank_line; content s; blank_line; end_ c] ++ tail).
  rewrite app_assoc.
  assert (Hlen : length ((CEREBRUS_IDENTIFIER :: before) ++ [blank_line]) =
                 (2 + 8 * length l1)%nat).
  { rewrite length_app. simpl. unfold before.
    rewrite length_section_lines, length_map. lia. }
  rewrite indexOf_chunks.
  - f_equal. unfold part_offset.
    rewrite firstn_app, <- Hlen, Nat.sub_diag, firstn_all, firstn_O, app_nil_r.
    rewrite lines_text_join by (destruct before; discriminate).
    rewrite length_app. reflexivity.
  - eapply start_no_line_feed; eauto.
  - apply chunks_free_app; [constructor|].
    + eapply start_not_in_identifier; eauto.
    + apply chunks_free_flat_map; [|eapply separator_free; eauto].
      eapply other_sections_free; eauto.
    + repeat constructor. eapply start_not_in_blank; eauto.
Qed.

(** Both sections are in the final object, and the one of lower priority
    number is rendered first. *)
Lemma render_order_offsets
    (body A B ca cb : js_string) (cA cB : section_config) :
  own_get A SECTIONS = Some cA -> own_get B SECTIONS = Some cB ->
  (priority cA < priority cB)%Z ->
  exists first final posA posB,
    updateCommentSection body B cb = Return first /\
    updateCommentSection first A ca = Return final /\
    let sections :=
      own_put A (mkSection ca (Some cA)) (parseCommentSections first) in
    final = buildComment sections /\
    start_marker_offset sections A = Some posA /\
    start_marker_offset sections B = Some posB /\
    (posA < posB)%nat /\
    starts_with (start cA) (skipn posA final) = true /\
    starts_with (start cB) (skipn posB final) = true.
Proof.
  intros HA HB Hlt.
  assert (Hne : A <> B) by (intros ->; rewrite HA in HB; injection HB as ->; lia).
  set (s1 := own_put B (mkSection cb (Some cB)) (parseCommentSections body)).
  assert (Hok1 : sections_ok s1)
    by (apply put_sections_ok; [assumption | apply parse_sections_ok]).
  destruct (parse_build_present s1 B (mkSection cb (Some cB)) Hok1
              (own_get_put_same _ _ _)) as [sB HsB].
  set (sections := own_put A (mkSection ca (Some cA))
                     (parseCommentSections (buildComment s1))).
  assert (Hok : sections_ok sections)
    by (apply put_sections_ok; [assumption | apply parse_sections_ok]).
  assert (HgetA : own_get A sections = Some (mkSection ca (Some cA)))
    by apply own_get_put_same.
  assert (HgetB : own_get B sections = Some sB)
    by (unfold sections; rewrite own_get_put_other; assumption).
  assert (HcfgB : config sB = Some cB).
  { destruct (entry_ok_registered _ _ _ (proj2 Hok) HgetB) as (c' & Hc' & Hs').
    congruence. }
  destruct (start_marker_offset_spec sections A _ cA Hok HgetA eq_refl)
    as (i & Hi & HpA & HoA & HsA).
  destruct (start_marker_offset_spec sections B _ cB Hok HgetB HcfgB)
    as (j & Hj & HpB & HoB & HsB').
  exists (buildComment s1), (buildComment sections),
    (part_offset (buildParts sections) (2 + 8 * i)),
    (part_offset (buildParts sections) (2 + 8 * j)).
  split; [apply updateCommentSection_registered; exact HB|].
  split; [apply updateCommentSection_registered; exact HA|].
  cbv zeta. fold sections.
  repeat split; auto.
  assert (Hij : (i < j)%nat).
  { eapply sorted_index_order;
      [apply sortedSections_sorted; exact Hok | exact Hi | exact Hj |].
    unfold prio; simpl. rewrite HcfgB. exact Hlt. }
  apply part_offset_lt; try lia.
  apply Nat.lt_le_incl. apply nth_error_Some. rewrite HpB. discriminate.
Qed.

(** C4. Render order follows the priorities of the table and not the order
    of the calls: when section B is written first and section A, of lower
    priority number, second, the start marker rendered for A lies at an
    earlier position of the final body than the start marker rendered for
    B, for every body and all contents. *)
Theorem render_order_by_priority
    (body A B ca cb : js_string) (cA cB : section_config) :
  own_get A SECTIONS = Some cA -> own_get B SECTIONS = Some cB ->
  (priority cA < priority cB)%Z ->
  exists first final posA posB,
    updateCommentSection body B cb = Return first /\
    updateCommentSection first A ca = Return final /\
    let sections :=
      own_put A (mkSection ca (Some cA)) (parseCommentSections first) in
    final = buildComment sections /\
    start_marker_offset sections A = Some posA /\
    start_marker_offset sections B = Some posB /\
    (posA < posB)%nat /\
    starts_with (start cA) (skipn posA final) = true /\
    starts_with (start cB) (skipn posB final) = true.
Proof. exact (render_order_offsets body A B ca cb cA cB). Qed.

Lemma render_order_by_priority_witness :
  exists first final posA posB,
    updateCommentSection (lit "unrelated") CHANGE_NOTE (lit "All good") =
      Return first /\
    updateCommentSection first BUILD_SIZE (lit "Size: +1KB") = Return final /\
    let sections :=
      own_put BUILD_SIZE
        (mkSection (lit "Size: +1KB")
           (Some (mkConfig 1 (lit "<!-- Build Size Section -->")
                             (lit "<!-- End Build Size Section -->"))))
        (parseCommentSections first) in
    final = buildComment sections /\
    start_marker_offset sections BUILD_SIZE = Some posA /\
    start_marker_offset sections CHANGE_NOTE = Some posB /\
    (posA < posB)%nat /\
    starts_with (lit "<!-- Build Size Section -->") (skipn posA final) = true /\
    starts_with (lit "<!-- Change Note Section -->") (skipn posB final) = true.
Proof.
  apply (render_order_by_priority (lit "unrelated") BUILD_SIZE CHANGE_NOTE
           (lit "Size: +1KB") (lit "All good")
           (mkConfig 1 (lit "<!-- Build Size Section -->")
                       (lit "<!-- End Build Size Section -->"))
           (mkConfig 3 (lit "<!-- Change Note Section -->")
                       (lit "<!-- End Change Note Section -->")));
    [reflexivity | reflexivity | simpl; lia].
Defined.

(** The offsets are those of the markers that [buildComment] renders.  The
    text of a marker may also be quoted by a content: here the Build Size
    section found in the body quotes the start marker of the Change Note
    section, and that text comes before the start marker rendered for the
    Path Validation section. *)
Example quoted_marker_text_comes_first :
  let first := updateCommentSection quoting_body CHANGE_NOTE (lit "cb") in
  let final := update_again first PATH_VALIDATION (lit "ca") in
  exists body,
    final = Return body /\
    indexOf (lit "<!-- Change Note Section -->") body = Some 60%nat /\
    indexOf (lit "<!-- Path Validation Section -->") body = Some 128%nat.
Proof. eexists. repeat split; vm_compute; reflexivity. Qed.

(** *** With contents free of markers, first occurrences are ordered too *)

Lemma trim_substring (x : js_string) : exists a b, x = a ++ trim x ++ b.
Proof.
  destruct (trim_start_suffix x) as [a Ha].
  destruct (trim_end_prefix (trim_start x)) as [b Hb].
  exists a, b. unfold trim. now rewrite <- Hb.
Qed.

Lemma occurs_trim (p x : js_string) :
  occurs p x = false -> occurs p (trim x) = false.
Proof.
  intros H. destruct (occurs p (trim x)) eqn:E; [|reflexivity].
  apply occurs_iff in E as (u & v & E).
  destruct (trim_substring x) as (a & b & Hx).
  assert (Hx' : occurs p x = true).
  { apply occurs_iff. exists (a ++ u), (v ++ b).
    rewrite Hx at 1. rewrite E. now rewrite <- !app_assoc. }
  congruence.
Qed.

Lemma marker_free_trim (x : js_string) :
  marker_free x = true -> marker_free (trim x) = true.
Proof.
  unfold marker_free. rewrite !forallb_forall. intros H e He.
  specialize (H e He). rewrite andb_true_iff, !negb_true_iff in *.
  split; apply occurs_trim; tauto.
Qed.

Lemma parse_build_marker_free (sections : sections_object) :
  sections_ok sections -> contents_marker_free sections ->
  contents_marker_free (parseCommentSections (buildComment sections)).
Proof.
  intros Hok Hfree. apply Forall_forall. intros [k s'] Hin.
  apply In_own_get in Hin; [|apply parse_sections_ok].
  rewrite parse_build_get in Hin by assumption.
  destruct (own_get k sections) as [s|] eqn:E; [|discriminate].
  injection Hin as <-. cbn [snd trim_content content].
  apply marker_free_trim.
  unfold contents_marker_free in Hfree. rewrite Forall_forall in Hfree.
  exact (Hfree _ (own_get_In _ _ _ E)).
Qed.

Lemma render_order_first_occurrence
    (body A B ca cb : js_string) (cA cB : section_config) :
  own_get A SECTIONS = Some cA -> own_get B SECTIONS = Some cB ->
  (priority cA < priority cB)%Z ->
  marker_free ca = true -> marker_free cb = true ->
  contents_marker_free (parseCommentSections body) ->
  exists first final posA posB,
    updateCommentSection body B cb = Return first /\
    updateCommentSection first A ca = Return final /\
    indexOf (start cA) final = Some posA /\
    indexOf (start cB) final = Some posB /\
    (posA < posB)%nat.
Proof.
  intros HA HB Hlt Hca Hcb Hbody.
  destruct (render_order_offsets body A B ca cb cA cB HA HB Hlt)
    as (first & final & posA & posB & H1 & H2 & Hfinal & HoA & HoB & Hpos & _).
  cbv zeta in *. exists first, final, posA, posB.
  repeat split; auto.
  - rewrite (updateCommentSection_registered _ _ _ _ HB) in H1.
    injection H1 as <-.
    assert (Hne : A <> B)
      by (intros ->; rewrite HA in HB; injection HB as ->; lia).
    set (s1 := own_put B (mkSection cb (Some cB)) (parseCommentSections body)) in *.
    assert (Hok1 : sections_ok s1)
      by (apply put_sections_ok; [assumption | apply parse_sections_ok]).
    assert (Hfree1 : contents_marker_free s1) by (apply Forall_put; assumption).
    set (sections := own_put A (mkSection ca (Some cA))
                       (parseCommentSections (buildComment s1))) in *.
    assert (Hok : sections_ok sections)
      by (apply put_sections_ok; [assumption | apply parse_sections_ok]).
    assert (Hfree : contents_marker_free sections)
      by (apply Forall_put; [assumption | now apply parse_build_marker_free]).
    rewrite Hfinal, <- HoA.
    symmetry. eapply start_marker_offset_first; eauto.
    apply own_get_put_same.
  - rewrite (updateCommentSection_registered _ _ _ _ HB) in H1.
    injection H1 as <-.
    assert (Hne : A <> B)
      by (intros ->; rewrite HA in HB; injection HB as ->; lia).
    set (s1 := own_put B (mkSection cb (Some cB)) (parseCommentSections body)) in *.
    assert (Hok1 : sections_ok s1)
      by (apply put_sections_ok; [assumption | apply parse_sections_ok]).
    assert (Hfree1 : contents_marker_free s1) by (apply Forall_put; assumption).
    set (sections := own_put A (mkSection ca (Some cA))
                       (parseCommentSections (buildComment s1))) in *.
    assert (Hok : sections_ok sections)
      by (apply put_sections_ok; [assumption | apply parse_sections_ok]).
    assert (Hfree : contents_marker_free sections)
      by (apply Forall_put; [assumption | now apply parse_build_marker_free]).
    rewrite Hfinal, <- HoB.
    destruct (parse_build_present s1 B _ Hok1 (own_get_put_same _ _ _)) as [sB HsB].
    symmetry. eapply start_marker_offset_first; eauto.
    unfold sections. rewrite own_get_put_other by assumption. exact HsB.
Qed.

(** ** Unknown keys *)

(** A key for which [SECTIONS[sectionKey]] is undefined is rejected by the
    three operations alike, with a message that names it, whatever the
    body is. *)
Lemma undefined_key_throws (k : js_string) :
  SECTIONS_get k = Undefined ->
  forall body content,
    updateCommentSection body k content = Throw (unknown_key k) /\
    removeCommentSection body k = Throw (unknown_key k) /\
    createCommentWithSection k content = Throw (unknown_key k).
Proof.
  intros H body content.
  unfold updateCommentSection, removeCommentSection, createCommentWithSection.
  rewrite H. repeat split.
Qed.

Lemma registered_key_returns (k : js_string) (c : section_config) :
  own_get k SECTIONS = Some c ->
  forall body content,
    (exists b, updateCommentSection body k content = Return b) /\
    (exists b, removeCommentSection body k = Return b) /\
    (exists b, createCommentWithSection k content = Return b).
Proof.
  intros H body content. repeat split.
  - rewrite (updateCommentSection_registered _ _ _ _ H). eexists; reflexivity.
  - rewrite (removeCommentSection_registered _ _ _ H). eexists; reflexivity.
  - rewrite (createCommentWithSection_registered _ _ _ H). eexists; reflexivity.
Qed.

Example not_real_throws :
  updateCommentSection (lit "any body") (lit "NOT_REAL") (lit "x") =
  Throw (lit "Unknown section key: NOT_REAL").
Proof. reflexivity. Qed.

(** C5, at the input where the code departs from it.  [constructor] is not
    a key of the table, yet [SECTIONS["constructor"]] is the function that
    every object inherits, which is truthy: none of the three operations
    throws, and the section is rendered without markers. *)
Theorem inherited_key_not_rejected :
  own_get (lit "constructor") SECTIONS = None /\
  createCommentWithSection (lit "constructor") (lit "x") =
    Return (CEREBRUS_IDENTIFIER ++ [LF; LF; LF; LF] ++ lit "x" ++ [LF; LF]) /\
  updateCommentSection [] (lit "constructor") (lit "x") =
    Return (CEREBRUS_IDENTIFIER ++ [LF; LF; LF; LF] ++ lit "x" ++ [LF; LF]) /\
  removeCommentSection [] (lit "constructor") = Return None.
Proof. repeat split. Qed.

(** ** Removing a section *)

(** C6. Deletion collapse: when the body parses to exactly one section,
    under key X, removing X returns [null]; and when the body parses to no
    section at all, removing any key of the table returns [null].  In both
    cases [null] is returned, not thrown. *)
Theorem removeCommentSection_collapse (body X : js_string) :
  (exists s, parseCommentSections body = [ (X, s) ]) \/
  (parseCommentSections body = [] /\ exists c, own_get X SECTIONS = Some c) ->
  removeCommentSection body X = Return None.
Proof.
  intros [[s Hs] | [Hnone [c Hc]]].
  - assert (Hok := parse_entry_ok body). rewrite Hs in Hok.
    inversion Hok as [|? ? (c & Hc & _) _]; subst. cbn [fst] in Hc.
    rewrite (removeCommentSection_registered _ _ _ Hc), Hs.
    cbn [own_delete]. now rewrite str_eqb_refl.
  - now rewrite (removeCommentSection_registered _ _ _ Hc), Hnone.
Qed.

Lemma removeCommentSection_collapse_witness :
  removeCommentSection
    (buildComment [ (BUILD_SIZE, mkSection (lit "Size: +1KB") (config_of BUILD_SIZE)) ])
    BUILD_SIZE = Return None /\
  removeCommentSection (lit "no section here") PATH_VALIDATION = Return None.
Proof.
  split.
  - apply removeCommentSection_collapse. left.
    eexists. vm_compute. reflexivity.
  - apply removeCommentSection_collapse. right.
    split; [vm_compute; reflexivity | eexists; reflexivity].
Defined.

(** Rendering what was parsed from a rendered document changes nothing,
    when the contents hold no marker. *)
Lemma reserialize_build (sections : sections_object) :
  sections_ok sections -> contents_marker_free sections ->
  (forall k s, own_get k sections = Some s -> trimmed (content s)) ->
  sections <> [] ->
  reserialize (buildComment sections) = Some (buildComment sections).
Proof.
  intros Hok Hfree Htrim Hne.
  assert (Hget : forall k, own_get k (parseCommentSections (buildComment sections)) =
                           own_get k sections).
  { intros k. rewrite parse_build_get by assumption.
    destruct (own_get k sections) as [s|] eqn:E; [|reflexivity].
    simpl. f_equal. apply trim_content_trimmed. eauto. }
  unfold reserialize, serialize.
  destruct (parseCommentSections (buildComment sections)) as [|e l] eqn:E.
  - destruct sections as [|[k s] rest]; [congruence|].
    specialize (Hget k). simpl in Hget. rewrite str_eqb_refl in Hget. discriminate.
  - f_equal. rewrite <- E in *. apply buildComment_same_properties;
      [apply parse_sections_ok | exact Hok | exact Hget].
Qed.






(** Without that condition the returned body need not be stable: when two
    sections found in the body quote each other's markers, removing the
    absent section from the returned body gives other bytes. *)
Example removed_body_not_stable :
  own_get CHANGE_NOTE (parseCommentSections overlapping_body) = None /\
  exists d d',
    removeCommentSection overlapping_body CHANGE_NOTE = Return (Some d) /\
    removeCommentSection d CHANGE_NOTE = Return (Some d') /\ d' <> d.
Proof.
  split; [vm_compute; reflexivity|].
  eexists. eexists. repeat split; try (vm_compute; reflexivity).
  vm_compute. discriminate.
Qed.

(** Nor is a body that [updateCommentSection] returned for a content with
    white space around it: the next parse trims the content. *)
Example untrimmed_body_not_stable :
  exists d d',
    updateCommentSection [] BUILD_SIZE (lit "Size: +1KB" ++ [LF]) = Return d /\
    removeCommentSection d CHANGE_NOTE = Return (Some d') /\ d' <> d.
Proof.
  eexists. eexists. repeat split; try (vm_compute; reflexivity).
  vm_compute. discriminate.
Qed.

(** Section objects that hold the same section under every key serialize
    alike. *)
Lemma serialize_same_properties (s1 s2 : sections_object) :
  sections_ok s1 -> sections_ok s2 ->
  (forall k, own_get k s1 = own_get k s2) -> serialize s1 = serialize s2.
Proof.
  intros H1 H2 Hget.
  destruct s1 as [|[k1 v1] s1], s2 as [|[k2 v2] s2]; simpl.
  - reflexivity.
  - specialize (Hget k2). simpl in Hget. rewrite str_eqb_refl in Hget. discriminate.
  - specialize (Hget k1). simpl in Hget. rewrite str_eqb_refl in Hget. discriminate.
  - f_equal. apply buildComment_same_properties; assumption.
Qed.

Lemma delete_sections_ok (sections : sections_object) (k : js_string) :
  sections_ok sections -> sections_ok (own_delete k sections).
Proof.
  intros [Hnd Hok]. split; [apply NoDup_keys_delete | apply Forall_delete]; assumption.
Qed.

(** X4. Removing a section right after writing it gives what removing it
    from the body before the write gives: the write leaves no trace, whatever
    the body held under that key.  No content may hold a marker. *)
Lemma remove_after_upsert (body X content : js_string) (c : section_config) :
  own_get X SECTIONS = Some c ->
  marker_free content = true ->
  contents_marker_free (parseCommentSections body) ->
  exists written,
    updateCommentSection body X content = Return written /\
    removeCommentSection written X = removeCommentSection body X.
Proof.
  intros HX Hcontent Hbody.
  rewrite (updateCommentSection_registered _ _ _ _ HX). eexists; split; [reflexivity|].
  rewrite !(removeCommentSection_registered _ _ _ HX). f_equal.
  set (sections := own_put X (mkSection content (Some c)) (parseCommentSections body)).
  assert (Hok : sections_ok sections)
    by (apply put_sections_ok; [assumption | apply parse_sections_ok]).
  assert (Hfree : contents_marker_free sections) by (apply Forall_put; assumption).
  apply serialize_same_properties;
    try (apply delete_sections_ok, parse_sections_ok).
  intros k. destruct (str_eqb X k) eqn:E.
  - apply str_eqb_eq in E; subst k.
    rewrite !own_get_delete_same by apply parse_sections_ok. reflexivity.
  - apply str_eqb_neq in E. rewrite !own_get_delete_other by assumption.
    rewrite parse_build_get by assumption.
    unfold sections. rewrite own_get_put_other by assumption.
    destruct (own_get k (parseCommentSections body)) as [s|] eqn:Es; [|reflexivity].
    simpl. f_equal. apply trim_content_trimmed.
    eapply parse_contents_trimmed; eauto.
Qed.

(** ** A fresh comment *)

Lemma parse_empty : parseCommentSections [] = [].
Proof. reflexivity. Qed.

(** C8. For every key of the table and every content,
    [createCommentWithSection] returns what [updateCommentSection] returns
    on the empty body: the identifier and that one section. *)
Theorem create_is_update_of_empty (id content : js_string) (c : section_config) :
  own_get id SECTIONS = Some c ->
  createCommentWithSection id content = updateCommentSection [] id content /\
  createCommentWithSection id content =
    Return (CEREBRUS_IDENTIFIER ++ [LF; LF] ++ start c ++ [LF; LF] ++
            content ++ [LF; LF] ++ end_ c).
Proof.
  intros Hid.
  rewrite (createCommentWithSection_registered _ _ _ Hid).
  rewrite (updateCommentSection_registered _ _ _ _ Hid), parse_empty.
  split; [reflexivity|].
  rewrite buildComment_format. reflexivity.
Qed.

Lemma create_is_update_of_empty_witness :
  createCommentWithSection BUILD_SIZE (lit "Size: +1KB") =
    updateCommentSection [] BUILD_SIZE (lit "Size: +1KB") /\
  createCommentWithSection BUILD_SIZE (lit "Size: +1KB") =
    Return (CEREBRUS_IDENTIFIER ++ [LF; LF] ++
            lit "<!-- Build Size Section -->" ++ [LF; LF] ++
            lit "Size: +1KB" ++ [LF; LF] ++
            lit "<!-- End Build Size Section -->").
Proof.
  apply (create_is_update_of_empty BUILD_SIZE (lit "Size: +1KB")
           (mkConfig 1 (lit "<!-- Build Size Section -->")
                       (lit "<!-- End Build Size Section -->"))).
  reflexivity.
Defined.

(** The scenarios of the specification. *)
Example scenario_two_sections :
  updateCommentSection
    (CEREBRUS_IDENTIFIER ++ [LF; LF] ++
     lit "<!-- Build Size Section -->" ++ [LF; LF] ++
     lit "Size: +1KB" ++ [LF; LF] ++
     lit "<!-- End Build Size Section -->")
    CHANGE_NOTE (lit "All good") =
  Return (CEREBRUS_IDENTIFIER ++ [LF; LF] ++
          lit "<!-- Build Size Section -->" ++ [LF; LF] ++
          lit "Size: +1KB" ++ [LF; LF] ++
          lit "<!-- End Build Size Section -->" ++ [LF; LF] ++
          lit "---" ++ [LF; LF] ++
          lit "<!-- Change Note Section -->" ++ [LF; LF] ++
          lit "All good" ++ [LF; LF] ++
          lit "<!-- End Change Note Section -->").
Proof. vm_compute. reflexivity. Qed.

Example scenario_remove_first :
  removeCommentSection sample_body BUILD_SIZE =
  Return (Some (CEREBRUS_IDENTIFIER ++ [LF; LF] ++
                lit "<!-- Change Note Section -->" ++ [LF; LF] ++
                lit "All good" ++ [LF; LF] ++
                lit "<!-- End Change Note Section -->")).
Proof. vm_compute. reflexivity. Qed.

(** ** Corrupted comments *)

Lemma regex_match_None_iff (st en body : js_string) :
  regex_match st en body = None <->
  (forall pre rest, body = pre ++ st ++ rest -> occurs en rest = false).
Proof.
  split.
  - intros Hnone pre rest ->.
    destruct (occurs en rest) eqn:E; [|reflexivity].
    apply occurs_iff in E as (m & b & ->).
    exfalso. apply (regex_match_found st en (pre ++ st ++ m ++ en ++ b)); eauto.
  - intros H. destruct (regex_match st en body) as [cap|] eqn:E; [|reflexivity].
    apply regex_match_spec in E as (a & b & ->).
    specialize (H a (cap ++ en ++ b) eq_refl).
    assert (occurs en (cap ++ en ++ b) = true) by (apply occurs_iff; eauto).
    congruence.
Qed.

(** C9. A section whose start marker is in the body with no end marker
    after it (or whose start marker is not in the body at all) is absent
    from the mapping that [parseCommentSections] returns; the function
    returns normally, and the other sections are read as they would be
    without the corruption. *)
Theorem corrupted_section_absent (body k : js_string) (c : section_config) :
  own_get k SECTIONS = Some c ->
  (forall pre rest, body = pre ++ start c ++ rest ->
                    occurs (end_ c) rest = false) ->
  own_get k (parseCommentSections body) = None /\
  forall k' c', own_get k' SECTIONS = Some c' ->
    own_get k' (parseCommentSections body) =
    option_map (fun capture => mkSection (trim capture) (Some c'))
      (regex_match (start c') (end_ c') body).
Proof.
  intros Hk Hno. split.
  - rewrite parse_get, Hk.
    apply regex_match_None_iff in Hno. now rewrite Hno.
  - intros k' c' Hk'. now rewrite parse_get, Hk'.
Qed.

Lemma corrupted_section_absent_witness :
  occurs (lit "<!-- Build Size Section -->") corrupted_body = true /\
  own_get BUILD_SIZE (parseCommentSections corrupted_body) = None /\
  forall k' c', own_get k' SECTIONS = Some c' ->
    own_get k' (parseCommentSections corrupted_body) =
    option_map (fun capture => mkSection (trim capture) (Some c'))
      (regex_match (start c') (end_ c') corrupted_body).
Proof.
  split; [vm_compute; reflexivity|].
  apply (corrupted_section_absent corrupted_body BUILD_SIZE
           (mkConfig 1 (lit "<!-- Build Size Section -->")
                       (lit "<!-- End Build Size Section -->")));
    [reflexivity|].
  apply regex_match_None_iff. vm_compute. reflexivity.
Defined.

Example corrupted_body_keeps_the_rest :
  keys (parseCommentSections corrupted_body) = [ CHANGE_NOTE ] /\
  option_map content (own_get CHANGE_NOTE (parseCommentSections corrupted_body))
  = Some (lit "All good").
Proof. split; vm_compute; reflexivity. Qed.

(** ** Only the parsed sections matter *)

Lemma parse_same_properties (b1 b2 : js_string) :
  (forall k, own_get k (parseCommentSections b1) =
             own_get k (parseCommentSections b2)) ->
  parseCommentSections b1 = parseCommentSections b2.
Proof.
  intros H. rewrite !parseCommentSections_entries.
  assert (Hin : forall e, In e SECTIONS -> parsed_entry b1 e = parsed_entry b2 e).
  { intros [k c] Hin. specialize (H k). rewrite !parse_get in H.
    rewrite (In_own_get _ _ _ SECTIONS_keys_NoDup Hin) in H.
    unfold parsed_entry. cbn [fst snd].
    destruct (regex_match (start c) (end_ c) b1),
             (regex_match (start c) (end_ c) b2); simpl in H;
      try discriminate; try reflexivity.
    injection H as ->. reflexivity. }
  induction SECTIONS as [|e l IH]; [reflexivity|].
  cbn [flat_map]. rewrite (Hin e) by (left; reflexivity).
  rewrite IH by (intros; apply Hin; right; assumption). reflexivity.
Qed.

(** C10. What [updateCommentSection] and [removeCommentSection] return is
    decided by the sections parsed from the body: two bodies with the same
    parsed sections give the same result, for every key (of the table or
    not) and every content.  Whatever else the body held is dropped. *)
Theorem result_depends_on_parsed_sections (b1 b2 : js_string) :
  (forall k, own_get k (parseCommentSections b1) =
             own_get k (parseCommentSections b2)) ->
  forall sectionKey newContent,
    updateCommentSection b1 sectionKey newContent =
      updateCommentSection b2 sectionKey newContent /\
    removeCommentSection b1 sectionKey = removeCommentSection b2 sectionKey.
Proof.
  intros H sectionKey newContent. apply parse_same_properties in H.
  unfold updateCommentSection, removeCommentSection. rewrite H. split; reflexivity.
Qed.

Lemma result_depends_on_parsed_sections_witness :
  sample_body <> sample_body_with_prose /\
  (forall k, own_get k (parseCommentSections sample_body) =
             own_get k (parseCommentSections sample_body_with_prose)) /\
  forall sectionKey newContent,
    updateCommentSection sample_body sectionKey newContent =
      updateCommentSection sample_body_with_prose sectionKey newContent /\
    removeCommentSection sample_body sectionKey =
      removeCommentSection sample_body_with_prose sectionKey.
Proof.
  assert (E : parseCommentSections sample_body =
              parseCommentSections sample_body_with_prose)
    by (vm_compute; reflexivity).
  assert (H : forall k, own_get k (parseCommentSections sample_body) =
                        own_get k (parseCommentSections sample_body_with_prose))
    by (intros k; rewrite E; reflexivity).
  split; [vm_compute; discriminate|].
  split; [exact H|].
  exact (result_depends_on_parsed_sections sample_body sample_body_with_prose H).
Defined.

(** The prose and the second identifier are gone after an update. *)
Example prose_is_dropped :
  updateCommentSection sample_body_with_prose CHANGE_NOTE (lit "All good") =
  Return sample_body.
Proof. vm_compute. reflexivity. Qed.

(** * Further properties of the module *)

Lemma str_eqb_sym_false (a b : js_string) :
  str_eqb a b = false -> str_eqb b a = false.
Proof. rewrite !str_eqb_neq. congruence. Qed.


(** ** What the parser reads after a write *)

(** The capture in a rendered document is the content between two blank
    lines. *)
Lemma regex_match_build (sections : sections_object)
    (k : js_string) (s : section) (c : section_config) :
  sections_ok sections -> contents_marker_free sections ->
  own_get k sections = Some s -> own_get k SECTIONS = Some c ->
  regex_match (start c) (end_ c) (buildComment sections) =
  Some (LF :: LF :: content s ++ [LF; LF]).
Proof.
  intros Hok Hfree Hget Hc.
  assert (Hsok := sortedSections_ok _ Hok).
  assert (Hsfree : contents_marker_free (sortedSections sections)).
  { eapply Permutation_Forall; [|exact Hfree].
    apply Permutation_sym, sortedSections_perm. }
  assert (Hsget : own_get k (sortedSections sections) = Some s).
  { rewrite <- Hget. symmetry. apply Permutation_own_get; [apply Hok|].
    apply Permutation_sym, sortedSections_perm. }
  rewrite buildComment_format.
  destruct (in_split _ _ (own_get_In _ _ _ Hsget)) as (l1 & l2 & El).
  rewrite El in *.
  apply (regex_match_rendered_present k c Hc l1 l2 s); assumption.
Qed.

(** Two section objects that render to the same bytes hold the same
    content under every key they share. *)
Lemma buildComment_content (s1 s2 : sections_object)
    (k : js_string) (a b : section) :
  sections_ok s1 -> contents_marker_free s1 ->
  sections_ok s2 -> contents_marker_free s2 ->
  own_get k s1 = Some a -> own_get k s2 = Some b ->
  buildComment s1 = buildComment s2 -> content a = content b.
Proof.
  intros Hok1 Hfree1 Hok2 Hfree2 Ha Hb E.
  destruct (entry_ok_registered _ _ _ (proj2 Hok1) Ha) as (c & Hc & _).
  assert (H1 := regex_match_build s1 k a c Hok1 Hfree1 Ha Hc).
  assert (H2 := regex_match_build s2 k b c Hok2 Hfree2 Hb Hc).
  rewrite E, H2 in H1. injection H1 as H1.
  now apply app_inv_tail in H1.
Qed.

Lemma put_marker_free (sections : sections_object)
    (k content : js_string) (c : section_config) :
  marker_free content = true -> contents_marker_free sections ->
  contents_marker_free (own_put k (mkSection content (Some c)) sections).
Proof. intros; apply Forall_put; assumption. Qed.

Lemma delete_marker_free (sections : sections_object) (k : js_string) :
  contents_marker_free sections -> contents_marker_free (own_delete k sections).
Proof. apply Forall_delete. Qed.

Lemma parsed_get_trimmed (body k : js_string) :
  option_map trim_content (own_get k (parseCommentSections body)) =
  own_get k (parseCommentSections body).
Proof.
  destruct (own_get k (parseCommentSections body)) as [s|] eqn:E; [|reflexivity].
  simpl. f_equal. apply trim_content_trimmed.
  eapply parse_contents_trimmed; eauto.
Qed.

(** What the sections are after an upsert, key by key. *)
Lemma parse_update_get (body A content k : js_string) (c : section_config) :
  own_get A SECTIONS = Some c ->
  marker_free content = true ->
  contents_marker_free (parseCommentSections body) ->
  own_get k
    (parseCommentSections
       (buildComment
          (own_put A (mkSection content (Some c)) (parseCommentSections body)))) =
  own_get k
    (own_put A (mkSection (trim content) (Some c)) (parseCommentSections body)).
Proof.
  intros HA Hcontent Hbody.
  rewrite parse_build_get;
    [| apply put_sections_ok; [assumption | apply parse_sections_ok]
     | apply put_marker_free; assumption ].
  destruct (str_eqb A k) eqn:E.
  - apply str_eqb_eq in E; subst k. now rewrite !own_get_put_same.
  - apply str_eqb_neq in E. rewrite !own_get_put_other by assumption.
    apply parsed_get_trimmed.
Qed.

(** X1. Lookup after upsert: after [updateCommentSection] has written a
    content under a key of the table, the parser finds that content,
    trimmed, under that key, and under every other key what it found in
    the body before.  No content may hold a marker. *)
Theorem parse_after_update (body A content : js_string) (c : section_config) :
  own_get A SECTIONS = Some c ->
  marker_free content = true ->
  contents_marker_free (parseCommentSections body) ->
  exists written,
    updateCommentSection body A content = Return written /\
    own_get A (parseCommentSections written) =
      Some (mkSection (trim content) (Some c)) /\
    forall k, k <> A ->
      own_get k (parseCommentSections written) =
      own_get k (parseCommentSections body).
Proof.
  intros HA Hcontent Hbody.
  rewrite (updateCommentSection_registered _ _ _ _ HA).
  eexists; split; [reflexivity|]. split.
  - rewrite (parse_update_get _ _ _ _ _ HA Hcontent Hbody).
    apply own_get_put_same.
  - intros k Hk. rewrite (parse_update_get _ _ _ _ _ HA Hcontent Hbody).
    apply own_get_put_other. congruence.
Qed.

Lemma sample_body_marker_free :
  contents_marker_free (parseCommentSections sample_body).
Proof. repeat constructor. Qed.

Lemma parse_after_update_witness :
  exists written,
    updateCommentSection sample_body PATH_VALIDATION (lit " Check paths ") =
      Return written /\
    own_get PATH_VALIDATION (parseCommentSections written) =
      Some (mkSection (trim (lit " Check paths "))
              (Some (mkConfig 2 (lit "<!-- Path Validation Section -->")
                                (lit "<!-- End Path Validation Section -->")))) /\
    forall k, k <> PATH_VALIDATION ->
      own_get k (parseCommentSections written) =
      own_get k (parseCommentSections sample_body).
Proof.
  apply (parse_after_update sample_body PATH_VALIDATION (lit " Check paths ")).
  - reflexivity.
  - vm_compute. reflexivity.
  - exact sample_body_marker_free.
Defined.

(** X2. Lookup after removal: in the body that [removeCommentSection]
    returns, the parser no longer finds the removed key, and finds under
    every other key what it found before.  No parsed content may hold a
    marker. *)
Theorem parse_after_remove (body X d : js_string) (c : section_config) :
  own_get X SECTIONS = Some c ->
  contents_marker_free (parseCommentSections body) ->
  removeCommentSection body X = Return (Some d) ->
  own_get X (parseCommentSections d) = None /\
  forall k, k <> X ->
    own_get k (parseCommentSections d) = own_get k (parseCommentSections body).
Proof.
  intros HX Hbody Hd.
  rewrite (removeCommentSection_registered _ _ _ HX) in Hd.
  injection Hd as Hd. unfold serialize in Hd.
  destruct (own_delete X (parseCommentSections body)) as [|e l] eqn:E;
    [discriminate|].
  injection Hd as <-. rewrite <- E.
  assert (Hok : sections_ok (own_delete X (parseCommentSections body)))
    by apply delete_sections_ok, parse_sections_ok.
  assert (Hfree : contents_marker_free (own_delete X (parseCommentSections body)))
    by (apply delete_marker_free; assumption).
  split.
  - rewrite parse_build_get by assumption.
    now rewrite own_get_delete_same by apply parse_sections_ok.
  - intros k Hk. rewrite parse_build_get by assumption.
    rewrite own_get_delete_other by congruence.
    apply parsed_get_trimmed.
Qed.

Lemma parse_after_remove_witness :
  exists d,
    removeCommentSection sample_body BUILD_SIZE = Return (Some d) /\
    own_get BUILD_SIZE (parseCommentSections d) = None /\
    forall k, k <> BUILD_SIZE ->
      own_get k (parseCommentSections d) =
      own_get k (parseCommentSections sample_body).
Proof.
  eexists. split; [vm_compute; reflexivity|].
  apply (parse_after_remove sample_body BUILD_SIZE _
           (mkConfig 1 (lit "<!-- Build Size Section -->")
                       (lit "<!-- End Build Size Section -->")));
    [reflexivity | exact sample_body_marker_free | vm_compute; reflexivity].
Defined.

Lemma remove_after_upsert_witness :
  exists written,
    updateCommentSection sample_body PATH_VALIDATION (lit "Check paths") =
      Return written /\
    removeCommentSection written PATH_VALIDATION =
    removeCommentSection sample_body PATH_VALIDATION.
Proof.
  apply (remove_after_upsert sample_body PATH_VALIDATION (lit "Check paths")
           (mkConfig 2 (lit "<!-- Path Validation Section -->")
                       (lit "<!-- End Path Validation Section -->"))).
  - reflexivity.
  - vm_compute. reflexivity.
  - exact sample_body_marker_free.
Defined.

(** ** Calls in sequence *)

(** X3. Two upserts under different keys commute: when both contents are
    trimmed and no content holds a marker, the body after writing A then B
    is, byte for byte, the body after writing B then A. *)
Theorem updates_commute (body A B ca cb : js_string) (cA cB : section_config) :
  own_get A SECTIONS = Some cA -> own_get B SECTIONS = Some cB -> A <> B ->
  trimmed ca -> trimmed cb ->
  marker_free ca = true -> marker_free cb = true ->
  contents_marker_free (parseCommentSections body) ->
  update_again (updateCommentSection body A ca) B cb =
  update_again (updateCommentSection body B cb) A ca.
Proof.
  intros HA HB Hne Hta Htb Hfa Hfb Hbody.
  rewrite (updateCommentSection_registered body _ _ _ HA).
  rewrite (updateCommentSection_registered body _ _ _ HB).
  cbn [update_again].
  rewrite (updateCommentSection_registered _ _ _ _ HA).
  rewrite (updateCommentSection_registered _ _ _ _ HB).
  f_equal. apply buildComment_same_properties.
  - apply put_sections_ok; [assumption | apply parse_sections_ok].
  - apply put_sections_ok; [assumption | apply parse_sections_ok].
  - intros k.
    destruct (str_eqb B k) eqn:EB; [apply str_eqb_eq in EB; subst k|];
      [| destruct (str_eqb A k) eqn:EA; [apply str_eqb_eq in EA; subst k|] ].
    + rewrite own_get_put_same, own_get_put_other by assumption.
      rewrite (parse_update_get _ _ _ _ _ HB Hfb Hbody).
      rewrite own_get_put_same. now rewrite Htb.
    + rewrite own_get_put_same, own_get_put_other by congruence.
      rewrite (parse_update_get _ _ _ _ _ HA Hfa Hbody).
      rewrite own_get_put_same. now rewrite Hta.
    + apply str_eqb_neq in EA, EB.
      rewrite !own_get_put_other by assumption.
      rewrite (parse_update_get _ _ _ _ _ HA Hfa Hbody).
      rewrite (parse_update_get _ _ _ _ _ HB Hfb Hbody).
      now rewrite !own_get_put_other by assumption.
Qed.

Lemma updates_commute_witness :
  update_again (updateCommentSection sample_body PATH_VALIDATION (lit "Check paths"))
    BUILD_SIZE (lit "Size: +2KB") =
  update_again (updateCommentSection sample_body BUILD_SIZE (lit "Size: +2KB"))
    PATH_VALIDATION (lit "Check paths").
Proof.
  apply (updates_commute sample_body PATH_VALIDATION BUILD_SIZE
           (lit "Check paths") (lit "Size: +2KB")
           (mkConfig 2 (lit "<!-- Path Validation Section -->")
                       (lit "<!-- End Path Validation Section -->"))
           (mkConfig 1 (lit "<!-- Build Size Section -->")
                       (lit "<!-- End Build Size Section -->")));
    try reflexivity; try (vm_compute; reflexivity).
  - discriminate.
  - exact sample_body_marker_free.
Defined.

(** The order matters when a content is not trimmed: the section written
    last keeps its white space, the one written first has lost it. *)
Example updates_do_not_commute_untrimmed :
  update_again (updateCommentSection [] PATH_VALIDATION (lit "Check paths" ++ [LF]))
    BUILD_SIZE (lit "Size: +2KB") <>
  update_again (updateCommentSection [] BUILD_SIZE (lit "Size: +2KB"))
    PATH_VALIDATION (lit "Check paths" ++ [LF]).
Proof. vm_compute. discriminate. Qed.

(** X5. An upsert after a removal of the same key is the upsert alone: on
    the body that [removeCommentSection] returned, or as a fresh comment
    when it returned [null], writing the section gives the body that
    writing it at once gives.  No content may hold a marker. *)
Theorem update_after_remove (body X content : js_string) (c : section_config) :
  own_get X SECTIONS = Some c ->
  marker_free content = true ->
  contents_marker_free (parseCommentSections body) ->
  match removeCommentSection body X with
  | Return (Some d) => updateCommentSection d X content
  | Return None => createCommentWithSection X content
  | Throw m => Throw m
  end = updateCommentSection body X content.
Proof.
  intros HX Hcontent Hbody.
  rewrite (removeCommentSection_registered _ _ _ HX).
  rewrite (updateCommentSection_registered body _ _ _ HX).
  unfold serialize.
  destruct (own_delete X (parseCommentSections body)) as [|e l] eqn:E.
  - rewrite (createCommentWithSection_registered _ _ _ HX). f_equal.
    apply buildComment_same_properties.
    + split; [repeat constructor; simpl; tauto|].
      repeat constructor. exists c; auto.
    + apply put_sections_ok; [assumption | apply parse_sections_ok].
    + intros k. destruct (str_eqb X k) eqn:Ek.
      * apply str_eqb_eq in Ek; subst k. rewrite own_get_put_same.
        simpl. now rewrite str_eqb_refl.
      * assert (Ek' := Ek). apply str_eqb_neq in Ek.
        rewrite own_get_put_other by assumption.
        rewrite <- (own_get_delete_other X k (parseCommentSections body))
          by assumption.
        rewrite E. simpl. rewrite str_eqb_sym_false; [reflexivity | exact Ek'].
  - rewrite <- E. rewrite (updateCommentSection_registered _ _ _ _ HX). f_equal.
    assert (Hok : sections_ok (own_delete X (parseCommentSections body)))
      by apply delete_sections_ok, parse_sections_ok.
    assert (Hfree : contents_marker_free (own_delete X (parseCommentSections body)))
      by (apply delete_marker_free; assumption).
    apply buildComment_same_properties.
    + apply put_sections_ok; [assumption | apply parse_sections_ok].
    + apply put_sections_ok; [assumption | apply parse_sections_ok].
    + intros k. destruct (str_eqb X k) eqn:Ek.
      * apply str_eqb_eq in Ek; subst k. now rewrite !own_get_put_same.
      * apply str_eqb_neq in Ek. rewrite !own_get_put_other by assumption.
        rewrite parse_build_get by assumption.
        rewrite own_get_delete_other by assumption.
        apply parsed_get_trimmed.
Qed.

Lemma update_after_remove_witness :
  match removeCommentSection sample_body BUILD_SIZE with
  | Return (Some d) => updateCommentSection d BUILD_SIZE (lit "Size: +2KB")
  | Return None => createCommentWithSection BUILD_SIZE (lit "Size: +2KB")
  | Throw m => Throw m
  end = updateCommentSection sample_body BUILD_SIZE (lit "Size: +2KB").
Proof.
  apply (update_after_remove sample_body BUILD_SIZE (lit "Size: +2KB")
           (mkConfig 1 (lit "<!-- Build Size Section -->")
                       (lit "<!-- End Build Size Section -->"))).
  - reflexivity.
  - vm_compute. reflexivity.
  - exact sample_body_marker_free.
Defined.

(** ** When a written body is stable *)

Lemma put_stable_iff_trimmed
    (body A content : js_string) (c : section_config) :
  marker_free content = true ->
  contents_marker_free (parseCommentSections body) ->
  own_get A SECTIONS = Some c ->
  reserialize
    (buildComment
       (own_put A (mkSection content (Some c)) (parseCommentSections body))) =
  Some (buildComment
          (own_put A (mkSection content (Some c)) (parseCommentSections body)))
  <-> trimmed content.
Proof.
  intros Hcontent Hbody HA.
  set (sections := own_put A (mkSection content (Some c)) (parseCommentSections body)).
  assert (Hok : sections_ok sections)
    by (apply put_sections_ok; [assumption | apply parse_sections_ok]).
  assert (Hfree : contents_marker_free sections)
    by (apply put_marker_free; assumption).
  assert (HgetA : own_get A sections = Some (mkSection content (Some c)))
    by apply own_get_put_same.
  split.
  - intros Hstable. unfold reserialize, serialize in Hstable.
    destruct (parseCommentSections (buildComment sections)) as [|e l] eqn:E;
      [discriminate|].
    injection Hstable as Hstable. rewrite <- E in Hstable.
    assert (HgetA' : own_get A (parseCommentSections (buildComment sections)) =
                     Some (trim_content (mkSection content (Some c))))
      by (rewrite parse_build_get, HgetA by assumption; reflexivity).
    symmetry.
    apply (buildComment_content sections
             (parseCommentSections (buildComment sections)) A _ _
             Hok Hfree (parse_sections_ok _)
             (parse_build_marker_free _ Hok Hfree) HgetA HgetA').
    symmetry; exact Hstable.
  - intros Htrim. apply reserialize_build; auto.
    + intros k s Hs. destruct (str_eqb A k) eqn:E.
      * apply str_eqb_eq in E; subst k. rewrite HgetA in Hs.
        injection Hs as <-. exact Htrim.
      * apply str_eqb_neq in E. unfold sections in Hs.
        rewrite own_get_put_other in Hs by assumption.
        eapply parse_contents_trimmed; eauto.
    + intros E. rewrite E in HgetA. discriminate.
Qed.

(** X6. The body that [updateCommentSection] returns serializes to itself
    exactly when the content written is trimmed: a content with white space
    at either end gives a body that the next parse and render changes.  No
    content may hold a marker. *)
Theorem written_body_stable_iff_trimmed
    (body A content : js_string) (c : section_config) :
  own_get A SECTIONS = Some c ->
  marker_free content = true ->
  contents_marker_free (parseCommentSections body) ->
  exists written,
    updateCommentSection body A content = Return written /\
    (reserialize written = Some written <-> trimmed content).
Proof.
  intros HA Hcontent Hbody.
  rewrite (updateCommentSection_registered _ _ _ _ HA).
  eexists; split; [reflexivity|].
  apply put_stable_iff_trimmed; assumption.
Qed.

Lemma written_body_stable_iff_trimmed_witness :
  exists written,
    updateCommentSection sample_body BUILD_SIZE (lit "Size: +2KB" ++ [LF]) =
      Return written /\
    (reserialize written = Some written <->
     trimmed (lit "Size: +2KB" ++ [LF])).
Proof.
  apply (written_body_stable_iff_trimmed sample_body BUILD_SIZE
           (lit "Size: +2KB" ++ [LF])
           (mkConfig 1 (lit "<!-- Build Size Section -->")
                       (lit "<!-- End Build Size Section -->"))).
  - reflexivity.
  - vm_compute. reflexivity.
  - exact sample_body_marker_free.
Defined.

(** ** What the parser returns *)



(** * Properties of the jobs *)

(** ** build-size-report.js: the sizes shown *)

Lemma uint_units_digits (d : Decimal.uint) :
  Forall (fun c => (48 <=? c) && (c <=? 57) = true) (uint_units d).
Proof. induction d; simpl; constructor; auto. Qed.

Lemma units_uint_units (d : Decimal.uint) : units_uint (uint_units d) = Some d.
Proof. induction d; simpl; [reflexivity | rewrite IHd; reflexivity ..]. Qed.

Lemma read_decimal_decimal (n : Z) :
  (0 <= n)%Z -> read_decimal (decimal n) = Some n.
Proof.
  intros Hn. unfold read_decimal, decimal. rewrite units_uint_units. simpl.
  rewrite DecimalN.Unsigned.of_to. now rewrite Z2N.id.
Qed.

Lemma split_at_app (sep : code_unit) (before after : js_string) :
  Forall (fun c => (c =? sep) = false) before ->
  split_at sep (before ++ sep :: after) = Some (before, after).
Proof.
  induction 1 as [|c before Hc _ IH]; simpl.
  - now rewrite N.eqb_refl.
  - now rewrite Hc, IH.
Qed.

Lemma decimal_no (sep : code_unit) (n : Z) :
  (48 <=? sep) && (sep <=? 57) = false ->
  Forall (fun c => (c =? sep) = false) (decimal n).
Proof.
  intros Hsep. unfold decimal.
  eapply Forall_impl; [|apply uint_units_digits].
  intros c Hc. destruct (c =? sep) eqn:E; [|reflexivity].
  apply N.eqb_eq in E; subst c. congruence.
Qed.

Lemma decimal_digit (m : Z) :
  (0 <= m < 10)%Z -> exists c, decimal m = [c].
Proof.
  intros Hm.
  assert (H : (m = 0 \/ m = 1 \/ m = 2 \/ m = 3 \/ m = 4 \/ m = 5 \/ m = 6 \/
               m = 7 \/ m = 8 \/ m = 9)%Z) by lia.
  repeat (destruct H as [->|H]; [eexists; reflexivity|]).
  subst; eexists; reflexivity.
Qed.

Lemma tenths_nonneg (bytes : Z) : (0 <= tenths bytes)%Z.
Proof. unfold tenths. apply Z.div_pos; lia. Qed.

Lemma tenths_near (bytes : Z) :
  (Z.abs (1024 * tenths bytes - 10 * Z.abs bytes) <= 512)%Z.
Proof.
  unfold tenths.
  assert (H := Z.div_mod (10 * Z.abs bytes + 512) 1024 ltac:(lia)).
  assert (H' := Z.mod_pos_bound (10 * Z.abs bytes + 512) 1024 ltac:(lia)).
  lia.
Qed.

Lemma humanize_nonneg (bytes : Z) :
  (0 <= bytes)%Z ->
  humanize bytes =
  decimal (tenths bytes / 10) ++ 46 :: decimal (tenths bytes mod 10) ++
  32 :: lit "KB".
Proof.
  intros Hb. unfold humanize, toFixed1.
  assert (E : (bytes <? 0)%Z = false) by (apply Z.ltb_ge; lia).
  rewrite E. simpl app. rewrite <- !app_assoc. reflexivity.
Qed.

(** X8. The size that [humanize] prints is the size in KB rounded to the
    nearest tenth: reading the text back gives a number of tenths that is
    within half a tenth of a KB (51.2 bytes) of the byte count, and a larger
    byte count never prints a smaller figure. *)
Theorem humanize_rounds_to_tenths (bytes bytes' : Z) :
  (0 <= bytes <= bytes')%Z -> safe_integer bytes' ->
  exists shown shown',
    read_KB (humanize bytes) = Some shown /\
    read_KB (humanize bytes') = Some shown' /\
    (Z.abs (1024 * shown - 10 * bytes) <= 512)%Z /\
    (shown <= shown')%Z.
Proof.
  intros Hb _.
  assert (Hread : forall b, (0 <= b)%Z -> read_KB (humanize b) = Some (tenths b)).
  { intros b H0. rewrite (humanize_nonneg b H0). unfold read_KB.
    rewrite split_at_app by (apply decimal_no; reflexivity).
    destruct (decimal_digit (tenths b mod 10)) as [c Hc];
      [apply Z.mod_pos_bound; lia|].
    assert (Hc' : Forall (fun x => (x =? 32) = false) (decimal (tenths b mod 10)))
      by (apply decimal_no; reflexivity).
    rewrite split_at_app by assumption.
    rewrite Hc. rewrite str_eqb_refl. rewrite <- Hc.
    rewrite !read_decimal_decimal;
      [| apply Z.mod_pos_bound; lia
       | apply Z.div_pos; [apply tenths_nonneg | lia] ].
    f_equal. assert (E := Z.div_mod (tenths b) 10 ltac:(lia)). lia. }
  exists (tenths bytes), (tenths bytes').
  repeat split; try (apply Hread; lia).
  - assert (H := tenths_near bytes). rewrite (Z.abs_eq bytes) in H by lia. exact H.
  - unfold tenths. apply Z.div_le_mono; lia.
Qed.

Lemma humanize_rounds_to_tenths_witness :
  exists shown shown',
    read_KB (humanize 1075) = Some shown /\
    read_KB (humanize 1076) = Some shown' /\
    (Z.abs (1024 * shown - 10 * 1075) <= 512)%Z /\
    (shown <= shown')%Z.
Proof.
  apply (humanize_rounds_to_tenths 1075 1076);
    unfold safe_integer, MAX_SAFE_INTEGER; lia.
Defined.

Lemma humanize_small (d : Z) : (0 <= d <= 51)%Z -> humanize d = lit "0.0 KB".
Proof.
  intros Hd. rewrite humanize_nonneg by lia.
  assert (E : tenths d = 0%Z).
  { unfold tenths. rewrite Z.abs_eq by lia. apply Z.div_small. lia. }
  rewrite E. reflexivity.
Qed.

(** X9. A difference of 1 to 51 bytes is below the resolution of the
    report: the Diff line still says Increase or Decrease, with the amount
    [0.0 KB], and shows neither badge nor alert. *)
Theorem small_difference_shown_as_zero (prSize baseSize : Z) (baseRef : js_string) :
  safe_integer prSize -> safe_integer baseSize ->
  (0 < Z.abs (prSize - baseSize) <= 51)%Z ->
  generateMarkdown prSize baseSize baseRef =
  markdownText baseRef (humanize baseSize) (humanize prSize)
    (if (prSize >? baseSize)%Z then direction_increase else direction_decrease)
    (if (prSize >? baseSize)%Z then lit "+" else [])
    (lit "0.0 KB") [] [].
Proof.
  intros _ _ Hd. unfold generateMarkdown.
  rewrite (humanize_small (Z.abs (prSize - baseSize))) by lia.
  repeat match goal with
         | |- context [(?a >? ?b)%Z] => destruct (Z.gtb_spec a b)
         | |- context [(?a <? ?b)%Z] => destruct (Z.ltb_spec a b)
         | |- context [(?a >=? ?b)%Z] => destruct (Z.geb_spec a b)
         end; try lia; reflexivity.
Qed.

Lemma small_difference_shown_as_zero_witness :
  generateMarkdown 100051 100000 (lit "master") =
  markdownText (lit "master") (humanize 100000) (humanize 100051)
    direction_increase (lit "+") (lit "0.0 KB") [] [].
Proof.
  apply (small_difference_shown_as_zero 100051 100000 (lit "master"));
    unfold safe_integer, MAX_SAFE_INTEGER; lia.
Defined.

(** ** build-size-report.js: the ref *)


Lemma ref_char_no_angle (s : js_string) :
  forallb ref_char s = true -> no_angle s = true.
Proof.
  unfold no_angle. rewrite !forallb_forall. intros H c Hc.
  specialize (H c Hc). destruct (c =? 60) eqn:E; [|reflexivity].
  apply N.eqb_eq in E; subst c. discriminate.
Qed.

Lemma sanitize_ref_chars (baseRef : js_string) :
  forallb ref_char (sanitize_baseRef baseRef) = true.
Proof.
  apply forallb_forall. intros c Hc. apply filter_In in Hc. tauto.
Qed.


Example sanitize_drops_hyphens :
  sanitize_baseRef (lit "release-5.3/fix-it") = lit "release5.3/fixit".
Proof. reflexivity. Qed.

(** ** build-size-report.js: the message *)

Lemma no_angle_app (a b : js_string) :
  no_angle (a ++ b) = no_angle a && no_angle b.
Proof. apply forallb_app. Qed.

Lemma no_angle_decimal (n : Z) : no_angle (decimal n) = true.
Proof.
  unfold no_angle. apply forallb_forall. intros c Hc.
  assert (H := decimal_no 60 n eq_refl). rewrite Forall_forall in H.
  now rewrite (H c Hc).
Qed.

Lemma no_angle_humanize (bytes : Z) : no_angle (humanize bytes) = true.
Proof.
  unfold humanize, toFixed1.
  rewrite !no_angle_app, !no_angle_decimal.
  destruct (bytes <? 0)%Z; reflexivity.
Qed.

Lemma no_angle_markdownText
    (baseRef base pr direction sign diff badge alert : js_string) :
  no_angle baseRef = true -> no_angle base = true -> no_angle pr = true ->
  no_angle direction = true -> no_angle sign = true -> no_angle diff = true ->
  no_angle badge = true -> no_angle alert = true ->
  no_angle (markdownText baseRef base pr direction sign diff badge alert) = true.
Proof.
  intros H1 H2 H3 H4 H5 H6 H7 H8. unfold markdownText. cbn [concat].
  rewrite !no_angle_app, H1, H2, H3, H4, H5, H6, H7, H8. reflexivity.
Qed.

Lemma no_angle_generateMarkdown (prSize baseSize : Z) (baseRef : js_string) :
  no_angle baseRef = true ->
  no_angle (generateMarkdown prSize baseSize baseRef) = true.
Proof.
  intros Href. unfold generateMarkdown.
  repeat match goal with
         | |- context [(?a >? ?b)%Z] => destruct (a >? b)%Z
         | |- context [(?a <? ?b)%Z] => destruct (a <? b)%Z
         | |- context [(?a >=? ?b)%Z] => destruct (a >=? b)%Z
         end;
    apply no_angle_markdownText;
    auto using no_angle_humanize.
Qed.

Lemma occurs_head (c : code_unit) (p s : js_string) :
  occurs (c :: p) s = true -> In c s.
Proof.
  intros H. apply occurs_iff in H as (a & b & ->).
  apply in_or_app. right. left. reflexivity.
Qed.

Lemma no_angle_not_In (s : js_string) : no_angle s = true -> ~ In 60 s.
Proof.
  unfold no_angle. rewrite forallb_forall. intros H Hin.
  specialize (H _ Hin). discriminate.
Qed.

Lemma markers_start_with_angle :
  forallb (fun e => starts_with [60] (start (snd e)) &&
                    starts_with [60] (end_ (snd e))) SECTIONS = true /\
  starts_with [60] CEREBRUS_IDENTIFIER = true.
Proof. split; reflexivity. Qed.

(** A text without [<] holds no marker and no identifier. *)
Lemma no_angle_marker_free (s : js_string) :
  no_angle s = true ->
  marker_free s = true /\ occurs CEREBRUS_IDENTIFIER s = false.
Proof.
  intros Hs. apply no_angle_not_In in Hs.
  assert (Hfree : forall p, starts_with [60] p = true -> occurs p s = false).
  { intros p Hp. apply starts_with_iff in Hp as [r ->].
    apply not_true_is_false. intros E.
    apply (occurs_head 60 r s) in E. contradiction. }
  destruct markers_start_with_angle as [Hm Hi]. split; [|apply Hfree, Hi].
  unfold marker_free. apply forallb_forall. intros e He.
  rewrite forallb_forall in Hm. specialize (Hm e He).
  apply andb_true_iff in Hm as [H1 H2].
  now rewrite (Hfree _ H1), (Hfree _ H2).
Qed.

(** A string that ends with white space is not trimmed. *)
Lemma trimmed_last (m : js_string) (c : code_unit) :
  trimmed (m ++ [c]) -> is_white_space c = false.
Proof.
  unfold trimmed, trim. intros H.
  destruct (trim_start_suffix (m ++ [c])) as [a Ha].
  destruct (trim_end_prefix (trim_start (m ++ [c]))) as [b Hb].
  rewrite H in Hb.
  assert (Hlen : (length a + length b = 0)%nat).
  { apply (f_equal (@length _)) in Ha, Hb.
    rewrite ?length_app in Ha, Hb. simpl in Ha, Hb. rewrite Hb in Ha. lia. }
  assert (Ea : a = []) by (destruct a; [reflexivity | simpl in Hlen; lia]).
  subst a. simpl in Ha. rewrite <- Ha in H.
  unfold trim_end in H. apply (f_equal (@rev _)) in H.
  rewrite rev_involutive, rev_app_distr in H. simpl in H.
  apply (trim_start_head (c :: rev m) (rev m) c). exact H.
Qed.

Lemma concat_last (l : list js_string) :
  l <> [] -> concat l = concat (removelast l) ++ last l [].
Proof.
  intros Hl. rewrite (app_removelast_last [] Hl) at 1.
  rewrite concat_app. simpl. now rewrite app_nil_r.
Qed.

Lemma generateMarkdown_ends (prSize baseSize : Z) (baseRef : js_string) :
  exists m, generateMarkdown prSize baseSize baseRef = m ++ [LF].
Proof.
  unfold generateMarkdown.
  destruct (if (prSize - baseSize >? 20 * 1024)%Z
            then (badge_increase, alert_increase)
            else if (prSize - baseSize <? - (20 * 1024))%Z
                 then (badge_decrease, alert_decrease) else ([], []))
    as [badge alert].
  unfold markdownText. rewrite concat_last by discriminate.
  eexists. reflexivity.
Qed.

(** X11. The message of the build-size job: whatever the sizes, a ref
    without [<] (a sanitized ref is one) gives a message that holds no
    section marker and no identifier; and the message always ends with a
    line feed, so it is never a trimmed content. *)
Theorem generateMarkdown_message (prSize baseSize : Z) (baseRef : js_string) :
  safe_integer prSize -> safe_integer baseSize ->
  safe_integer (prSize - baseSize) ->
  no_angle baseRef = true ->
  marker_free (generateMarkdown prSize baseSize baseRef) = true /\
  occurs CEREBRUS_IDENTIFIER (generateMarkdown prSize baseSize baseRef) = false /\
  ~ trimmed (generateMarkdown prSize baseSize baseRef).
Proof.
  intros _ _ _ Href.
  destruct (no_angle_marker_free _ (no_angle_generateMarkdown prSize baseSize _ Href))
    as [H1 H2].
  repeat split; auto.
  destruct (generateMarkdown_ends prSize baseSize baseRef) as [m ->].
  intros H. apply trimmed_last in H. discriminate.
Qed.

Lemma generateMarkdown_message_witness :
  marker_free (generateMarkdown 123456 100000 (lit "master")) = true /\
  occurs CEREBRUS_IDENTIFIER (generateMarkdown 123456 100000 (lit "master")) = false /\
  ~ trimmed (generateMarkdown 123456 100000 (lit "master")).
Proof.
  apply (generateMarkdown_message 123456 100000 (lit "master"));
    [unfold safe_integer, MAX_SAFE_INTEGER; lia ..| reflexivity].
Defined.

(** ** The call that writes a section *)

Lemma write_section_registered (existing : option comment)
    (k message : js_string) (c : section_config) :
  own_get k SECTIONS = Some c ->
  write_section existing k message =
  Return (write_call existing
            (buildComment
               (own_put k (mkSection message (Some c))
                  (parseCommentSections (existing_body existing))))).
Proof.
  intros Hk. unfold write_section, write_call, existing_body.
  destruct existing as [e|].
  - now rewrite (updateCommentSection_registered _ _ _ _ Hk).
  - rewrite (createCommentWithSection_registered _ _ _ Hk), parse_empty.
    reflexivity.
Qed.


Lemma buildComment_starts (sections : sections_object) :
  exists rest, buildComment sections = CEREBRUS_IDENTIFIER ++ rest.
Proof.
  rewrite buildComment_format. unfold document_format.
  destruct (document_lines (map snd (sortedSections sections))) as [|l ls].
  - exists []. cbn [join]. symmetry. apply app_nil_r.
  - eexists. cbn [join]. reflexivity.
Qed.

Lemma own_get_put (k k' : js_string) (s : section) (o : sections_object) :
  own_get k' (own_put k s o) = if str_eqb k k' then Some s else own_get k' o.
Proof.
  destruct (str_eqb k k') eqn:E.
  - apply str_eqb_eq in E. subst k'. apply own_get_put_same.
  - apply str_eqb_neq in E. now apply own_get_put_other.
Qed.

(** What a written section reads back as, whatever call carries it. *)
Lemma written_section (existing : option comment)
    (k message : js_string) (c : section_config) :
  own_get k SECTIONS = Some c ->
  marker_free message = true ->
  contents_marker_free (parseCommentSections (existing_body existing)) ->
  let written :=
    buildComment
      (own_put k (mkSection message (Some c))
         (parseCommentSections (existing_body existing))) in
  own_get k (parseCommentSections written) =
    Some (mkSection (trim message) (Some c)) /\
  (forall k', k' <> k ->
     own_get k' (parseCommentSections written) =
     own_get k' (parseCommentSections (existing_body existing))) /\
  (reserialize written = Some written <-> trimmed message).
Proof.
  intros Hk Hfree Hbody written. unfold written. repeat split.
  - rewrite (parse_update_get _ _ _ _ _ Hk Hfree Hbody).
    apply own_get_put_same.
  - intros k' Hk'. rewrite (parse_update_get _ _ _ _ _ Hk Hfree Hbody).
    apply own_get_put_other. congruence.
  - apply put_stable_iff_trimmed; assumption.
  - apply put_stable_iff_trimmed; assumption.
Qed.

(** ** build-size-report.js: the job *)

Lemma no_angle_sanitize (baseRef : js_string) :
  no_angle (sanitize_baseRef baseRef) = true.
Proof. apply ref_char_no_angle, sanitize_ref_chars. Qed.

Lemma checked_context_valid (inputs : size_inputs) (baseRef : js_string)
    (prSize baseSize : Z) :
  pr_size inputs = Int prSize -> base_size inputs = Int baseSize ->
  (0 <= prSize)%Z -> (0 < baseSize)%Z -> sanitize_baseRef baseRef <> [] ->
  checked_context inputs baseRef =
  Return (prSize, baseSize, sanitize_baseRef baseRef).
Proof.
  intros Hpr Hbase Hp Hb Href. unfold checked_context. rewrite Hpr, Hbase.
  destruct (Z.ltb_spec prSize 0); [lia|].
  destruct (Z.leb_spec baseSize 0); [lia|].
  destruct (sanitize_baseRef baseRef); [contradiction | reflexivity].
Qed.

(** X12. The build-size job on valid inputs (sizes that are integers, the
    PR size not negative, the base size positive, a ref that keeps at least
    one character): it makes one call, an update of the comment found or a
    new comment.  In the body written the build-size section reads back as
    the message trimmed, every other section reads back as before, and the
    body does not serialize to itself, since the message ends with a line
    feed.  The contents parsed from the comment found may hold no marker. *)
Theorem commentSize_writes (inputs : size_inputs) (baseRef : js_string)
    (existingComment : option comment) (prSize baseSize : Z) :
  pr_size inputs = Int prSize -> base_size inputs = Int baseSize ->
  (0 <= prSize <= MAX_SAFE_INTEGER)%Z ->
  (0 < baseSize <= MAX_SAFE_INTEGER)%Z ->
  sanitize_baseRef baseRef <> [] ->
  contents_marker_free (parseCommentSections (existing_body existingComment)) ->
  exists written,
    commentSize inputs baseRef existingComment false =
      Return (write_call existingComment written) /\
    option_map content (own_get BUILD_SIZE (parseCommentSections written)) =
      Some (trim (generateMarkdown prSize baseSize (sanitize_baseRef baseRef))) /\
    (forall k, k <> BUILD_SIZE ->
       own_get k (parseCommentSections written) =
       own_get k (parseCommentSections (existing_body existingComment))) /\
    reserialize written <> Some written.
Proof.
  intros Hpr Hbase Hp Hb Href Hbody.
  unfold commentSize.
  rewrite (checked_context_valid _ _ _ _ Hpr Hbase) by (lia || assumption).
  cbn beta iota.
  set (message := generateMarkdown prSize baseSize (sanitize_baseRef baseRef)).
  assert (Hmsg : marker_free message = true).
  { apply no_angle_marker_free, no_angle_generateMarkdown, no_angle_sanitize. }
  assert (Hk : own_get BUILD_SIZE SECTIONS =
               Some (mkConfig 1 (lit "<!-- Build Size Section -->")
                                (lit "<!-- End Build Size Section -->")))
    by reflexivity.
  rewrite (write_section_registered _ _ _ _ Hk).
  destruct (written_section existingComment _ message _ Hk Hmsg Hbody)
    as (Hget & Hothers & Hstable).
  eexists. split; [reflexivity|]. split; [|split].
  - rewrite Hget. reflexivity.
  - exact Hothers.
  - intros H. apply Hstable in H. unfold message in H.
    destruct (generateMarkdown_ends prSize baseSize (sanitize_baseRef baseRef))
      as [m Hm].
    rewrite Hm in H. apply trimmed_last in H. discriminate.
Qed.

Lemma commentSize_writes_witness :
  exists written,
    commentSize (mkInputs (lit "123456") (Int 123456) (lit "100000") (Int 100000))
      (lit "master") (Some (mkComment 7 sample_body)) false =
      Return (write_call (Some (mkComment 7 sample_body)) written) /\
    option_map content (own_get BUILD_SIZE (parseCommentSections written)) =
      Some (trim (generateMarkdown 123456 100000
                    (sanitize_baseRef (lit "master")))) /\
    (forall k, k <> BUILD_SIZE ->
       own_get k (parseCommentSections written) =
       own_get k (parseCommentSections
                    (existing_body (Some (mkComment 7 sample_body))))) /\
    reserialize written <> Some written.
Proof.
  apply (commentSize_writes
           (mkInputs (lit "123456") (Int 123456) (lit "100000") (Int 100000))
           (lit "master") (Some (mkComment 7 sample_body)) 123456 100000).
  - reflexivity.
  - reflexivity.
  - unfold MAX_SAFE_INTEGER. lia.
  - unfold MAX_SAFE_INTEGER. lia.
  - vm_compute. discriminate.
  - exact sample_body_marker_free.
Defined.


(** ** The rules job *)

Lemma processRules_abort (rules : list rule) (baseRef : js_string)
    (changedFiles messages : list js_string) :
  snd (processRules rules baseRef changedFiles messages) =
  stop_matched rules baseRef changedFiles.
Proof.
  revert messages. induction rules as [|r rest IH]; intros messages; simpl.
  - reflexivity.
  - destruct (condition r baseRef changedFiles); simpl; [|apply IH].
    destruct (stopProcessing r); simpl; [reflexivity | apply IH].
Qed.

Lemma processRules_messages (rules : list rule) (baseRef : js_string)
    (changedFiles messages : list js_string) :
  stop_matched rules baseRef changedFiles = false ->
  fst (processRules rules baseRef changedFiles messages) =
  messages ++ matched_messages rules baseRef changedFiles.
Proof.
  revert messages. unfold matched_messages.
  induction rules as [|r rest IH]; intros messages; simpl.
  - intros _. now rewrite app_nil_r.
  - destruct (condition r baseRef changedFiles); simpl; [|apply IH].
    destruct (stopProcessing r); simpl; [discriminate|].
    intros H. rewrite (IH _ H), <- app_assoc. reflexivity.
Qed.

Lemma applyRules_nothing (rules : list rule) (baseRef : js_string)
    (changedFiles : list js_string) (existing : option comment)
    (dryRun : bool) :
  stop_matched rules baseRef changedFiles = true \/
  matched_messages rules baseRef changedFiles = [] ->
  applyRules rules baseRef changedFiles existing dryRun =
  applyRules [] baseRef changedFiles existing dryRun.
Proof.
  intros H. unfold applyRules.
  assert (Ha := processRules_abort rules baseRef changedFiles []).
  assert (Hm := processRules_messages rules baseRef changedFiles []).
  destruct (processRules rules baseRef changedFiles []) as [messages abort].
  cbn [fst snd processRules] in *.
  destruct (stop_matched rules baseRef changedFiles).
  - subst abort. rewrite andb_false_r. reflexivity.
  - destruct H as [H | H]; [discriminate|].
    rewrite (Hm eq_refl), H. reflexivity.
Qed.

Lemma applyRules_matched (rules : list rule) (baseRef : js_string)
    (changedFiles : list js_string) (existing : option comment) :
  stop_matched rules baseRef changedFiles = false ->
  matched_messages rules baseRef changedFiles <> [] ->
  applyRules rules baseRef changedFiles existing false =
  write_section existing PATH_VALIDATION
    (trim (join [LF] (matched_messages rules baseRef changedFiles))).
Proof.
  intros Hstop Hmsg. unfold applyRules.
  assert (Ha := processRules_abort rules baseRef changedFiles []).
  assert (Hm := processRules_messages rules baseRef changedFiles [] Hstop).
  destruct (processRules rules baseRef changedFiles []) as [messages abort].
  cbn [fst snd] in *. rewrite Hstop in Ha. subst abort. simpl in Hm. subst messages.
  destruct (matched_messages rules baseRef changedFiles); [contradiction|].
  reflexivity.
Qed.

Lemma truthy_buildComment (sections : sections_object) :
  truthy_string (buildComment sections) = true.
Proof. destruct (buildComment_starts sections) as [rest ->]. reflexivity. Qed.

Lemma nothing_to_report_call (baseRef : js_string)
    (changedFiles : list js_string) (e : comment) :
  applyRules [] baseRef changedFiles (Some e) false =
  Return
    match serialize (own_delete PATH_VALIDATION
                       (parseCommentSections (comment_body e))) with
    | None => deleteComment (comment_id e)
    | Some d => if str_eqb d (comment_body e) then NoCall
                else updateComment (comment_id e) d
    end.
Proof.
  unfold applyRules. cbn [processRules length Nat.ltb Nat.leb andb negb].
  rewrite (removeCommentSection_registered (comment_body e) PATH_VALIDATION
             (mkConfig 2 (lit "<!-- Path Validation Section -->")
                         (lit "<!-- End Path Validation Section -->")) eq_refl).
  unfold serialize.
  destruct (own_delete PATH_VALIDATION (parseCommentSections (comment_body e)))
    as [|p l]; [reflexivity|].
  rewrite truthy_buildComment.
  destruct (str_eqb (buildComment (p :: l)) (comment_body e)); reflexivity.
Qed.

Lemma own_delete_nil (k : js_string) (o : sections_object) :
  NoDup (keys o) ->
  (own_delete k o = [] <-> forall k', k' <> k -> own_get k' o = None).
Proof.
  intros Hnd. split.
  - intros E k' Hk'.
    rewrite <- (own_get_delete_other k k' o) by congruence.
    now rewrite E.
  - intros H. destruct (own_delete k o) as [|[k1 v1] l] eqn:E; [reflexivity|].
    assert (Hhead : own_get k1 (own_delete k o) = Some v1)
      by (rewrite E; simpl; now rewrite str_eqb_refl).
    destruct (str_eqb k k1) eqn:Ek.
    + apply str_eqb_eq in Ek. subst k1.
      rewrite own_get_delete_same in Hhead by assumption. discriminate.
    + apply str_eqb_neq in Ek.
      rewrite own_get_delete_other in Hhead by assumption.
      rewrite H in Hhead by congruence. discriminate.
Qed.

(** The body left when a section is taken out of a parsed body. *)
Lemma serialized_delete (body k d : js_string) :
  contents_marker_free (parseCommentSections body) ->
  serialize (own_delete k (parseCommentSections body)) = Some d ->
  own_get k (parseCommentSections d) = None /\
  (forall k', k' <> k ->
     own_get k' (parseCommentSections d) =
     own_get k' (parseCommentSections body)) /\
  reserialize d = Some d.
Proof.
  intros Hbody Hd. unfold serialize in Hd.
  destruct (own_delete k (parseCommentSections body)) as [|e l] eqn:E;
    [discriminate|].
  injection Hd as <-. rewrite <- E.
  assert (Hok : sections_ok (own_delete k (parseCommentSections body)))
    by apply delete_sections_ok, parse_sections_ok.
  assert (Hfree : contents_marker_free (own_delete k (parseCommentSections body)))
    by (apply delete_marker_free; assumption).
  split; [|split].
  - rewrite parse_build_get by assumption.
    now rewrite own_get_delete_same by apply parse_sections_ok.
  - intros k' Hk'. rewrite parse_build_get by assumption.
    rewrite own_get_delete_other by congruence.
    apply parsed_get_trimmed.
  - apply reserialize_build; auto.
    + intros k' s Hs. destruct (str_eqb k k') eqn:Ek.
      * apply str_eqb_eq in Ek. subst k'.
        rewrite own_get_delete_same in Hs by apply parse_sections_ok.
        discriminate.
      * apply str_eqb_neq in Ek.
        rewrite own_get_delete_other in Hs by assumption.
        eapply parse_contents_trimmed; eauto.
    + rewrite E. discriminate.
Qed.

(** X14. A rule that matches and says to stop makes the job behave as if
    there were no rules at all: no message is written, not even the one of
    the rule that stopped, and the section of an earlier run is taken out.
    The same holds when no rule matches. *)
Theorem applyRules_stop_is_no_rule (rules : list rule) (baseRef : js_string)
    (changedFiles : list js_string) (existing : option comment)
    (dryRun : bool) :
  stop_matched rules baseRef changedFiles = true \/
  matched_messages rules baseRef changedFiles = [] ->
  applyRules rules baseRef changedFiles existing dryRun =
  applyRules [] baseRef changedFiles existing dryRun.
Proof. exact (applyRules_nothing rules baseRef changedFiles existing dryRun). Qed.

Lemma applyRules_stop_is_no_rule_witness :
  applyRules sample_rules (lit "legacy") [lit "core/boot.js"]
    (Some (mkComment 7 sample_body)) false =
  applyRules [] (lit "legacy") [lit "core/boot.js"]
    (Some (mkComment 7 sample_body)) false.
Proof.
  apply (applyRules_stop_is_no_rule sample_rules (lit "legacy")
           [lit "core/boot.js"] (Some (mkComment 7 sample_body)) false).
  left. reflexivity.
Defined.

(** X15. The rules job with nothing to report, on a comment whose parsed
    contents hold no marker.  It makes no call exactly when the comment has
    no path-validation section and serializes to itself; it deletes the
    comment exactly when no other section is parsed from it; in every other
    case it updates the comment with a different body, which has no
    path-validation section and the other sections as parsed.  It never
    throws. *)
Theorem applyRules_cleanup (rules : list rule) (baseRef : js_string)
    (changedFiles : list js_string) (e : comment) :
  stop_matched rules baseRef changedFiles = true \/
  matched_messages rules baseRef changedFiles = [] ->
  contents_marker_free (parseCommentSections (comment_body e)) ->
  exists call,
    applyRules rules baseRef changedFiles (Some e) false = Return call /\
    (call = NoCall <->
     own_get PATH_VALIDATION (parseCommentSections (comment_body e)) = None /\
     reserialize (comment_body e) = Some (comment_body e)) /\
    (call = deleteComment (comment_id e) <->
     forall k, k <> PATH_VALIDATION ->
       own_get k (parseCommentSections (comment_body e)) = None) /\
    (call = NoCall \/ call = deleteComment (comment_id e) \/
     exists d, call = updateComment (comment_id e) d /\
       d <> comment_body e /\
       own_get PATH_VALIDATION (parseCommentSections d) = None /\
       (forall k, k <> PATH_VALIDATION ->
          own_get k (parseCommentSections d) =
          own_get k (parseCommentSections (comment_body e))) /\
       reserialize d = Some d).
Proof.
  intros Hnothing Hbody.
  rewrite (applyRules_nothing _ _ _ _ _ Hnothing), nothing_to_report_call.
  eexists. split; [reflexivity|].
  assert (Hnd : NoDup (keys (parseCommentSections (comment_body e))))
    by apply parse_sections_ok.
  assert (Hnil := own_delete_nil PATH_VALIDATION _ Hnd).
  destruct (serialize (own_delete PATH_VALIDATION
                         (parseCommentSections (comment_body e))))
    as [d|] eqn:Eser.
  - destruct (serialized_delete _ _ _ Hbody Eser) as (Hpv & Hothers & Hstable).
    assert (Hnot : ~ (forall k, k <> PATH_VALIDATION ->
                        own_get k (parseCommentSections (comment_body e)) = None)).
    { intros H. apply Hnil in H. rewrite H in Eser. discriminate. }
    destruct (str_eqb d (comment_body e)) eqn:Ed.
    + apply str_eqb_eq in Ed. subst d. repeat split; auto; try discriminate.
      intros H; contradiction.
    + apply str_eqb_neq in Ed. split; [|split].
      * split; [discriminate|]. intros [Habsent Hsame].
        rewrite (own_delete_absent _ _ Habsent) in Eser.
        unfold reserialize in Hsame. congruence.
      * split; [discriminate | intros H; contradiction].
      * right; right. exists d. auto.
  - assert (Hall : forall k, k <> PATH_VALIDATION ->
                     own_get k (parseCommentSections (comment_body e)) = None).
    { apply Hnil. unfold serialize in Eser.
      destruct (own_delete PATH_VALIDATION
                  (parseCommentSections (comment_body e)));
        [reflexivity | discriminate]. }
    split; [|split].
    + split; [discriminate|]. intros [Habsent Hsame].
      rewrite (own_delete_absent _ _ Habsent) in Eser.
      unfold reserialize in Hsame. congruence.
    + split; auto.
    + auto.
Qed.

Lemma applyRules_cleanup_witness :
  exists call,
    applyRules sample_rules (lit "master") [lit "readme.md"]
      (Some (mkComment 7 sample_body)) false = Return call /\
    (call = NoCall <->
     own_get PATH_VALIDATION (parseCommentSections sample_body) = None /\
     reserialize sample_body = Some sample_body) /\
    (call = deleteComment 7 <->
     forall k, k <> PATH_VALIDATION ->
       own_get k (parseCommentSections sample_body) = None) /\
    (call = NoCall \/ call = deleteComment 7 \/
     exists d, call = updateComment 7 d /\
       d <> sample_body /\
       own_get PATH_VALIDATION (parseCommentSections d) = None /\
       (forall k, k <> PATH_VALIDATION ->
          own_get k (parseCommentSections d) =
          own_get k (parseCommentSections sample_body)) /\
       reserialize d = Some d).
Proof.
  apply (applyRules_cleanup sample_rules (lit "master") [lit "readme.md"]
           (mkComment 7 sample_body)).
  - right. reflexivity.
  - exact sample_body_marker_free.
Defined.

Lemma join_prefixed (messages : list js_string) :
  messages <> [] ->
  join [LF] (map (fun m => [LF; LF] ++ m) messages) =
  [LF; LF] ++ join [LF; LF; LF] messages.
Proof.
  induction messages as [|m rest IH]; [contradiction|]. intros _.
  destruct rest as [|m' rest]; [reflexivity|].
  change (join [LF] (map (fun m => [LF; LF] ++ m) (m :: m' :: rest)))
    with (([LF; LF] ++ m) ++ [LF] ++
          join [LF] (map (fun m => [LF; LF] ++ m) (m' :: rest))).
  rewrite IH by discriminate.
  change (join [LF; LF; LF] (m :: m' :: rest))
    with (m ++ [LF; LF; LF] ++ join [LF; LF; LF] (m' :: rest)).
  rewrite <- !app_assoc. reflexivity.
Qed.

(** The message of the path-validation section: the messages of the rules
    that match, two blank lines between them, trimmed. *)
Lemma pathMessage_text (rules : list rule) (baseRef : js_string)
    (changedFiles : list js_string) :
  matched_messages rules baseRef changedFiles <> [] ->
  trim (join [LF] (matched_messages rules baseRef changedFiles)) =
  trim (join [LF; LF; LF]
          (map rule_message
             (filter (fun r => condition r baseRef changedFiles) rules))).
Proof.
  unfold matched_messages. intros Hne.
  rewrite <- (map_map rule_message (fun m => [LF; LF] ++ m)) in *.
  rewrite join_prefixed by (intros E; rewrite E in Hne; contradiction).
  rewrite <- (app_nil_r (join [LF; LF; LF] _)) at 1.
  apply (trim_pad [LF; LF] _ []); reflexivity.
Qed.

(** X16. The rules job with something to report (a rule matches and none
    that matches says to stop): it makes one call, an update of the comment
    found or a new comment.  The path-validation section of the body written
    reads back as the messages of the matching rules, in the order of the
    rules, with two blank lines between them and trimmed as a whole; every
    other section reads back as before, and the body serializes to itself.
    No marker may occur in that message or in the contents parsed from the
    comment found. *)
Theorem applyRules_reports (rules : list rule) (baseRef : js_string)
    (changedFiles : list js_string) (existing : option comment) :
  stop_matched rules baseRef changedFiles = false ->
  matched_messages rules baseRef changedFiles <> [] ->
  marker_free
    (trim (join [LF] (matched_messages rules baseRef changedFiles))) = true ->
  contents_marker_free (parseCommentSections (existing_body existing)) ->
  exists written,
    applyRules rules baseRef changedFiles existing false =
      Return (write_call existing written) /\
    option_map content
      (own_get PATH_VALIDATION (parseCommentSections written)) =
      Some (trim (join [LF; LF; LF]
                    (map rule_message
                       (filter (fun r => condition r baseRef changedFiles)
                          rules)))) /\
    (forall k, k <> PATH_VALIDATION ->
       own_get k (parseCommentSections written) =
       own_get k (parseCommentSections (existing_body existing))) /\
    reserialize written = Some written.
Proof.
  intros Hstop Hmsg Hfree Hbody.
  rewrite (applyRules_matched _ _ _ _ Hstop Hmsg).
  assert (Hk : own_get PATH_VALIDATION SECTIONS =
               Some (mkConfig 2 (lit "<!-- Path Validation Section -->")
                                (lit "<!-- End Path Validation Section -->")))
    by reflexivity.
  rewrite (write_section_registered _ _ _ _ Hk).
  destruct (written_section existing _ _ _ Hk Hfree Hbody)
    as (Hget & Hothers & Hstable).
  eexists. split; [reflexivity|]. split; [|split].
  - rewrite Hget. cbn [option_map content].
    rewrite trim_idem. f_equal. now apply pathMessage_text.
  - exact Hothers.
  - apply Hstable. apply trim_idem.
Qed.

Lemma applyRules_reports_witness :
  exists written,
    applyRules sample_rules (lit "master") [lit "core/boot.js"]
      (Some (mkComment 7 sample_body)) false =
      Return (write_call (Some (mkComment 7 sample_body)) written) /\
    option_map content
      (own_get PATH_VALIDATION (parseCommentSections written)) =
      Some (trim (join [LF; LF; LF]
                    (map rule_message
                       (filter (fun r => condition r (lit "master")
                                           [lit "core/boot.js"])
                          sample_rules)))) /\
    (forall k, k <> PATH_VALIDATION ->
       own_get k (parseCommentSections written) =
       own_get k (parseCommentSections
                    (existing_body (Some (mkComment 7 sample_body))))) /\
    reserialize written = Some written.
Proof.
  apply (applyRules_reports sample_rules (lit "master") [lit "core/boot.js"]
           (Some (mkComment 7 sample_body))).
  - reflexivity.
  - vm_compute. discriminate.
  - vm_compute. reflexivity.
  - exact sample_body_marker_free.
Defined.

(** ** The jobs one after the other *)



(** ** The calls of the three jobs *)



(** ** validate-changenotes.js: the messages *)

Lemma trimmed_ends (c1 c2 : code_unit) (m : js_string) :
  is_white_space c1 = false -> is_white_space c2 = false ->
  trimmed (c1 :: m ++ [c2]).
Proof.
  intros H1 H2. unfold trimmed, trim. cbn [trim_start]. rewrite H1.
  assert (E : rev (c1 :: m ++ [c2]) = c2 :: rev m ++ [c1])
    by (simpl; rewrite rev_app_distr; reflexivity).
  unfold trim_end. rewrite E. cbn [trim_start]. rewrite H2.
  rewrite <- E. apply rev_involutive.
Qed.

Lemma trimmed_between (c1 c2 : code_unit) (h s t : js_string) :
  is_white_space c1 = false -> is_white_space c2 = false ->
  trimmed ((c1 :: h) ++ s ++ t ++ [c2]).
Proof.
  intros H1 H2.
  replace ((c1 :: h) ++ s ++ t ++ [c2]) with (c1 :: (h ++ s ++ t) ++ [c2])
    by (simpl; rewrite <- !app_assoc; reflexivity).
  now apply trimmed_ends.
Qed.

Lemma generateSuccessComment_parts (summaries : js_string) :
  generateSuccessComment summaries = success_head ++ summaries ++ success_tail.
Proof. reflexivity. Qed.

Lemma validationFailedText_parts (errorText : js_string) :
  validationFailedText errorText = failed_head ++ errorText ++ failed_tail.
Proof. reflexivity. Qed.

Lemma generateSuccessComment_trimmed (summaries : js_string) :
  trimmed (generateSuccessComment summaries).
Proof.
  rewrite generateSuccessComment_parts.
  change success_head with (35 :: tl success_head).
  change success_tail with (removelast success_tail ++ [62]).
  now apply trimmed_between.
Qed.

Lemma validationFailedText_trimmed (errorText : js_string) :
  trimmed (validationFailedText errorText).
Proof.
  rewrite validationFailedText_parts.
  change failed_head with (35 :: tl failed_head).
  change failed_tail with (removelast failed_tail ++ [41]).
  now apply trimmed_between.
Qed.

Lemma change_note_comment_trimmed (facts : change_note_facts) :
  trimmed (fst (change_note_comment facts)).
Proof.
  unfold change_note_comment.
  repeat match goal with
         | |- context [if ?b then _ else _] => destruct b
         end; cbn [fst];
    lazymatch goal with
    | |- trimmed (generateSuccessComment _) =>
        apply generateSuccessComment_trimmed
    | |- trimmed (generateValidationFailedComment _) =>
        apply validationFailedText_trimmed
    | |- _ => vm_compute; reflexivity
    end.
Qed.

Lemma change_note_comment_heading (facts : change_note_facts) :
  starts_with (lit "## " ++ [9989]) (fst (change_note_comment facts)) =
  snd (change_note_comment facts).
Proof.
  unfold change_note_comment.
  repeat match goal with
         | |- context [if ?b then _ else _] => destruct b
         end; reflexivity.
Qed.

(** X19. The heading of the change-note message tells the outcome of the
    job: the message starts with [## ] and the check mark exactly when the
    job returns success, and otherwise the job throws its failure, whatever
    the comment found and the dry-run flag are.  The message itself has no
    white space at either end, whatever the summaries and the errors
    hold. *)
Theorem change_note_heading_is_outcome (facts : change_note_facts)
    (existingComment : option comment) (dryRun : bool) :
  trimmed (fst (change_note_comment facts)) /\
  snd (validateChangeNotes facts existingComment dryRun) =
  if starts_with (lit "## " ++ [9989]) (fst (change_note_comment facts))
  then Return true
  else Throw (lit "Change note validation failed").
Proof.
  split; [apply change_note_comment_trimmed|].
  rewrite change_note_comment_heading. unfold validateChangeNotes.
  destruct (change_note_comment facts) as [commentBody validationPassed].
  cbn [snd]. destruct dryRun; cbn [negb].
  - destruct validationPassed; reflexivity.
  - rewrite (write_section_registered existingComment CHANGE_NOTE commentBody
               (mkConfig 3 (lit "<!-- Change Note Section -->")
                           (lit "<!-- End Change Note Section -->")) eq_refl).
    destruct validationPassed; reflexivity.
Qed.

(** X20. The change-note job outside a dry run writes the comment first and
    fails afterwards: also when validation fails there is one call, an
    update of the comment found or a new comment.  In the body written the
    change-note section reads back as the message, unchanged; every other
    section reads back as before; and the body serializes to itself.  No
    marker may occur in the message or in the contents parsed from the
    comment found. *)
Theorem validateChangeNotes_writes (facts : change_note_facts)
    (existingComment : option comment) :
  marker_free (fst (change_note_comment facts)) = true ->
  contents_marker_free (parseCommentSections (existing_body existingComment)) ->
  exists written,
    validateChangeNotes facts existingComment false =
      (write_call existingComment written,
       if snd (change_note_comment facts) then Return true
       else Throw (lit "Change note validation failed")) /\
    option_map content (own_get CHANGE_NOTE (parseCommentSections written)) =
      Some (fst (change_note_comment facts)) /\
    (forall k, k <> CHANGE_NOTE ->
       own_get k (parseCommentSections written) =
       own_get k (parseCommentSections (existing_body existingComment))) /\
    reserialize written = Some written.
Proof.
  intros Hfree Hbody.
  assert (Htrim := change_note_comment_trimmed facts).
  unfold validateChangeNotes.
  destruct (change_note_comment facts) as [commentBody validationPassed].
  cbn [fst snd negb] in *.
  assert (Hk : own_get CHANGE_NOTE SECTIONS =
               Some (mkConfig 3 (lit "<!-- Change Note Section -->")
                                (lit "<!-- End Change Note Section -->")))
    by reflexivity.
  rewrite (write_section_registered _ _ _ _ Hk).
  destruct (written_section existingComment _ commentBody _ Hk Hfree Hbody)
    as (Hget & Hothers & Hstable).
  eexists. split; [destruct validationPassed; reflexivity|].
  split; [|split].
  - rewrite Hget. cbn [option_map content]. now rewrite Htrim.
  - exact Hothers.
  - apply Hstable, Htrim.
Qed.

Lemma validateChangeNotes_writes_witness :
  exists written,
    validateChangeNotes
      (mkFacts true [lit "a.tid"] (Some (lit "info"))
         (mkValidation false [mkErrors (lit "a.tid") [lit "Missing field: title"] ])
         [] true)
      (Some (mkComment 7 sample_body)) false =
      (write_call (Some (mkComment 7 sample_body)) written,
       if snd (change_note_comment
                 (mkFacts true [lit "a.tid"] (Some (lit "info"))
                    (mkValidation false
                       [mkErrors (lit "a.tid") [lit "Missing field: title"] ])
                    [] true))
       then Return true
       else Throw (lit "Change note validation failed")) /\
    option_map content (own_get CHANGE_NOTE (parseCommentSections written)) =
      Some (fst (change_note_comment
                   (mkFacts true [lit "a.tid"] (Some (lit "info"))
                      (mkValidation false
                         [mkErrors (lit "a.tid") [lit "Missing field: title"] ])
                      [] true))) /\
    (forall k, k <> CHANGE_NOTE ->
       own_get k (parseCommentSections written) =
       own_get k (parseCommentSections
                    (existing_body (Some (mkComment 7 sample_body))))) /\
    reserialize written = Some written.
Proof.
  apply (validateChangeNotes_writes
           (mkFacts true [lit "a.tid"] (Some (lit "info"))
              (mkValidation false
                 [mkErrors (lit "a.tid") [lit "Missing field: title"] ])
              [] true)
           (Some (mkComment 7 sample_body))).
  - vm_compute. reflexivity.
  - exact sample_body_marker_free.
Defined.

Lemma fold_left_append {A : Type} (g : A -> js_string) (l : list A)
    (acc : js_string) :
  fold_left (fun errorText x => errorText ++ g x) l acc =
  acc ++ concat (map g l).
Proof.
  revert acc. induction l as [|x l IH]; intros acc; simpl.
  - now rewrite app_nil_r.
  - rewrite IH, <- app_assoc. reflexivity.
Qed.

Lemma issue_lines_concat (l : list js_string) :
  issue_lines l = concat (map (fun issue => lit "- " ++ issue ++ [LF]) l).
Proof.
  unfold issue_lines.
  apply (fold_left_append (fun issue => lit "- " ++ issue ++ [LF]) l []).
Qed.

Lemma errorText_blocks (errors : list file_errors) (acc : js_string) :
  fold_left
    (fun errorText e =>
       let errorText :=
         errorText ++ file_heading_open ++ file e ++ lit "`" ++ [LF; LF] in
       let errorText :=
         fold_left
           (fun errorText issue => errorText ++ lit "- " ++ issue ++ [LF])
           (issues e) errorText in
       errorText ++ [LF])
    errors acc =
  acc ++ concat (map error_block errors).
Proof.
  revert acc. induction errors as [|e rest IH]; intros acc;
    cbn [fold_left map concat].
  - now rewrite app_nil_r.
  - rewrite IH. cbn zeta.
    rewrite (fold_left_append (fun issue => lit "- " ++ issue ++ [LF])).
    unfold error_block. rewrite issue_lines_concat.
    rewrite <- !app_assoc. reflexivity.
Qed.

Lemma generateValidationFailedComment_blocks (errors : list file_errors) :
  generateValidationFailedComment errors =
  failed_head ++ concat (map error_block errors) ++ failed_tail.
Proof.
  unfold generateValidationFailedComment. cbn zeta.
  rewrite validationFailedText_parts, errorText_blocks. reflexivity.
Qed.

Lemma occurs_concat_In (p : js_string) (l : list js_string) (x : js_string) :
  In x l -> occurs p x = true -> occurs p (concat l) = true.
Proof.
  intros Hin Hp. apply in_split in Hin as (l1 & l2 & ->).
  apply occurs_iff in Hp as (a & b & ->).
  apply occurs_iff. exists (concat l1 ++ a), (b ++ concat l2).
  rewrite concat_app. cbn [concat]. rewrite <- !app_assoc. reflexivity.
Qed.

Lemma occurs_middle (p a s b : js_string) :
  occurs p s = true -> occurs p (a ++ s ++ b) = true.
Proof.
  intros Hp. apply occurs_iff in Hp as (x & y & ->).
  apply occurs_iff. exists (a ++ x), (y ++ b).
  rewrite <- !app_assoc. reflexivity.
Qed.

(** X21. The message for a failed validation lists everything it was
    given: between its fixed head and tail stand the blocks of the files in
    the order of the errors, so the heading of every file and the line of
    every issue occur in the message; without errors nothing stands between
    head and tail. *)
Theorem generateValidationFailedComment_lists (errors : list file_errors) :
  generateValidationFailedComment errors =
    failed_head ++ concat (map error_block errors) ++ failed_tail /\
  (forall e, In e errors ->
     occurs (file_heading_open ++ file e ++ lit "`" ++ [LF; LF])
       (generateValidationFailedComment errors) = true /\
     forall issue, In issue (issues e) ->
       occurs (lit "- " ++ issue ++ [LF])
         (generateValidationFailedComment errors) = true) /\
  (errors = [] ->
   generateValidationFailedComment errors = failed_head ++ failed_tail).
Proof.
  split; [apply generateValidationFailedComment_blocks|]. split.
  - intros e He. rewrite generateValidationFailedComment_blocks.
    split.
    + apply occurs_middle.
      apply (occurs_concat_In _ _ (error_block e)); [now apply in_map|].
      apply occurs_iff. exists [], (issue_lines (issues e) ++ [LF]).
      unfold error_block. cbn [app]. rewrite <- !app_assoc. reflexivity.
    + intros issue Hissue. apply occurs_middle.
      apply (occurs_concat_In _ _ (error_block e)); [now apply in_map|].
      assert (E : error_block e =
                  (file_heading_open ++ file e ++ lit "`" ++ [LF; LF]) ++
                  concat (map (fun issue => lit "- " ++ issue ++ [LF])
                            (issues e)) ++ [LF])
        by (unfold error_block; rewrite issue_lines_concat, <- !app_assoc;
            reflexivity).
      rewrite E. apply occurs_middle.
      apply (occurs_concat_In _ _ (lit "- " ++ issue ++ [LF])).
      * apply (in_map (fun issue => lit "- " ++ issue ++ [LF])), Hissue.
      * apply occurs_iff. exists [], []. now rewrite app_nil_r.
  - intros ->. reflexivity.
Qed.
